(** * core-js-101, src/06-objects-tasks.js

    A shallow embedding of the objects tasks: the [Rectangle] constructor and
    the CSS selector builder ([MySelectorsClass] behind the
    [cssSelectorBuilder] facade).

    JavaScript objects are mutable and are passed by reference, so builder
    instances live in an explicit heap and every method is a computation in a
    state-and-exception monad over that heap.  A [throw] keeps whatever the
    heap holds at that point, exactly as an exception in JavaScript does not
    roll back earlier assignments. *)

From Stdlib Require Import ZArith Ascii String Floats.
From stdpp Require Import base tactics option list strings sorting.

Local Open Scope Z_scope.

(** ** Rectangle *)

(** [function Rectangle(width, height)], called with [new].  The fields are
    JavaScript numbers, that is IEEE 754 binary64 values.  The arrow function
    stored in [this.getArea] closes over [this] and reads both fields when it
    is called, so it is a function of the record. *)
Module Rectangle.

Record t : Type := new_Rectangle { width : float; height : float }.

Definition getArea (this : t) : float := (width this * height this)%float.

End Rectangle.

(** ** The heap monad *)

(** A reference to a builder instance: its index in the heap. *)
Abbreviation loc := nat.

(** How a call ends: with a value, or with a thrown [Error] whose message is
    recorded. *)
Inductive outcome (A : Type) : Type :=
  | Normal (a : A)
  | Throw (message : string).
Arguments Normal {A} a.
Arguments Throw {A} message.

(** The instance fields assigned by the constructor of [MySelectorsClass]. *)
Record instance : Type := Instance_ {
  selector : string;
  isElementCalled : bool;
  isIdCalled : bool;
  isPseudoElementCalled : bool;
  order : Z
}.

Definition set_selector (v : string) (o : instance) : instance :=
  Instance_ v (isElementCalled o) (isIdCalled o) (isPseudoElementCalled o) (order o).
Definition set_isElementCalled (v : bool) (o : instance) : instance :=
  Instance_ (selector o) v (isIdCalled o) (isPseudoElementCalled o) (order o).
Definition set_isIdCalled (v : bool) (o : instance) : instance :=
  Instance_ (selector o) (isElementCalled o) v (isPseudoElementCalled o) (order o).
Definition set_isPseudoElementCalled (v : bool) (o : instance) : instance :=
  Instance_ (selector o) (isElementCalled o) (isIdCalled o) v (order o).
Definition set_order (v : Z) (o : instance) : instance :=
  Instance_ (selector o) (isElementCalled o) (isIdCalled o) (isPseudoElementCalled o) v.

(** Objects are never freed, so the heap is a growing list indexed by [loc]. *)
Abbreviation heap := (list instance).

Definition M (A : Type) : Type := heap → heap * outcome A.

Definition ret {A} (a : A) : M A := λ h, (h, Normal a).

Definition throw {A} (message : string) : M A := λ h, (h, Throw message).

Definition bind {A B} (m : M A) (k : A → M B) : M B :=
  λ h, match m h with
       | (h', Normal a) => k a h'
       | (h', Throw e) => (h', Throw e)
       end.

Declare Scope js_scope.
Delimit Scope js_scope with js.
Notation "x <- m ;; k" := (bind m (λ x, k))
  (at level 100, m at next level, right associativity) : js_scope.
Notation "m ;; k" := (bind m (λ _, k))
  (at level 100, right associativity) : js_scope.
Local Open Scope js_scope.

(** The engine's message for a property access through a reference that
    denotes no object.  References handed out by the facade always denote one
    (see [facade_allocated]). *)
Definition no_object : string := "TypeError: not an object".

(** [this.f] *)
Definition read {A} (f : instance → A) (this : loc) : M A :=
  λ h, match h !! this with
       | Some o => (h, Normal (f o))
       | None => (h, Throw no_object)
       end.

(** [this.f = v] *)
Definition write (upd : instance → instance) (this : loc) : M unit :=
  λ h, match h !! this with
       | Some o => (<[this := upd o]> h, Normal tt)
       | None => (h, Throw no_object)
       end.

(** ** MySelectorsClass *)

Module MySelectorsClass.

Definition duplicate_error : string :=
  "Element, id and pseudo-element should not occur more then one time inside the selector".

Definition order_error : string :=
  "Selector parts should be arranged in the following order: element, id, class, attribute, pseudo-class, pseudo-element".

(** [new MySelectorsClass()]: the constructor's five assignments on a
    fresh object. *)
Definition constructed : instance :=
  {| selector := "";
     isElementCalled := false;
     isIdCalled := false;
     isPseudoElementCalled := false;
     order := 0 |}.

Definition new : M loc := λ h, (h ++ [constructed], Normal (length h)).

Definition element (this : loc) (val : string) : M loc :=
  called <- read isElementCalled this;;
  if called then throw duplicate_error else
  ord <- read order this;;
  if 1 <? ord then throw order_error else
  sel <- read selector this;;
  write (set_selector (sel +:+ val)) this;;
  write (set_isElementCalled true) this;;
  write (set_order 1) this;;
  ret this.

Definition id (this : loc) (val : string) : M loc :=
  called <- read isIdCalled this;;
  if called then throw duplicate_error else
  ord <- read order this;;
  if 2 <? ord then throw order_error else
  sel <- read selector this;;
  write (set_selector (sel +:+ "#" +:+ val)) this;;
  write (set_isIdCalled true) this;;
  write (set_order 2) this;;
  ret this.

Definition class (this : loc) (val : string) : M loc :=
  ord <- read order this;;
  if 3 <? ord then throw order_error else
  sel <- read selector this;;
  write (set_selector (sel +:+ "." +:+ val)) this;;
  write (set_order 3) this;;
  ret this.

Definition attr (this : loc) (val : string) : M loc :=
  ord <- read order this;;
  if 4 <? ord then throw order_error else
  sel <- read selector this;;
  write (set_selector (sel +:+ "[" +:+ val +:+ "]")) this;;
  write (set_order 4) this;;
  ret this.

Definition pseudoClass (this : loc) (val : string) : M loc :=
  ord <- read order this;;
  if 5 <? ord then throw order_error else
  sel <- read selector this;;
  write (set_selector (sel +:+ ":" +:+ val)) this;;
  write (set_order 5) this;;
  ret this.

Definition pseudoElement (this : loc) (val : string) : M loc :=
  called <- read isPseudoElementCalled this;;
  if called then throw duplicate_error else
  sel <- read selector this;;
  write (set_selector (sel +:+ "::" +:+ val)) this;;
  write (set_isPseudoElementCalled true) this;;
  write (set_order 6) this;;
  ret this.

Definition stringify (this : loc) : M string :=
  read selector this.

Definition combine (this : loc) (val1 : loc) (com : string) (val2 : loc) : M loc :=
  s1 <- stringify val1;;
  s2 <- stringify val2;;
  write (set_selector (s1 +:+ " " +:+ com +:+ " " +:+ s2)) this;;
  ret this.

End MySelectorsClass.

(** ** cssSelectorBuilder *)

Module cssSelectorBuilder.

Definition element (value : string) : M loc :=
  this <- MySelectorsClass.new;; MySelectorsClass.element this value.

Definition id (value : string) : M loc :=
  this <- MySelectorsClass.new;; MySelectorsClass.id this value.

Definition class (value : string) : M loc :=
  this <- MySelectorsClass.new;; MySelectorsClass.class this value.

Definition attr (value : string) : M loc :=
  this <- MySelectorsClass.new;; MySelectorsClass.attr this value.

Definition pseudoClass (value : string) : M loc :=
  this <- MySelectorsClass.new;; MySelectorsClass.pseudoClass this value.

Definition pseudoElement (value : string) : M loc :=
  this <- MySelectorsClass.new;; MySelectorsClass.pseudoElement this value.

Definition combine (selector1 : loc) (combinator : string) (selector2 : loc) : M loc :=
  this <- MySelectorsClass.new;;
  MySelectorsClass.combine this selector1 combinator selector2.

End cssSelectorBuilder.

(** ** Chains of category calls *)

(** One of the six category methods together with its argument. *)
Inductive call : Type :=
  | Element (value : string)
  | Id (value : string)
  | Class (value : string)
  | Attr (value : string)
  | PseudoClass (value : string)
  | PseudoElement (value : string).

(** The rank of a category in [element#id.class[attr]:pseudoClass::pseudoElement];
    it is the constant the method stores in [this.order]. *)
Definition ordinal (c : call) : Z :=
  match c with
  | Element _ => 1
  | Id _ => 2
  | Class _ => 3
  | Attr _ => 4
  | PseudoClass _ => 5
  | PseudoElement _ => 6
  end.

(** The text a category method appends to [this.selector]. *)
Definition fragment (c : call) : string :=
  match c with
  | Element v => v
  | Id v => "#" +:+ v
  | Class v => "." +:+ v
  | Attr v => "[" +:+ v +:+ "]"
  | PseudoClass v => ":" +:+ v
  | PseudoElement v => "::" +:+ v
  end.

(** The categories limited to one occurrence, and the repeatable ones. *)
Definition singleton (c : call) : bool :=
  match c with
  | Element _ | Id _ | PseudoElement _ => true
  | Class _ | Attr _ | PseudoClass _ => false
  end.

Definition same_category (c c' : call) : bool := ordinal c =? ordinal c'.

Definition is_element (c : call) : bool :=
  match c with Element _ => true | _ => false end.

(** [follows c c']: [c'] may come after [c] in a selector: a later category,
    or the same repeatable one. *)
Definition follows (c c' : call) : Prop :=
  ordinal c < ordinal c' ∨ (ordinal c = ordinal c' ∧ singleton c = false).

(** [this.<category>(value)] *)
Definition invoke (c : call) (this : loc) : M loc :=
  match c with
  | Element v => MySelectorsClass.element this v
  | Id v => MySelectorsClass.id this v
  | Class v => MySelectorsClass.class this v
  | Attr v => MySelectorsClass.attr this v
  | PseudoClass v => MySelectorsClass.pseudoClass this v
  | PseudoElement v => MySelectorsClass.pseudoElement this v
  end.

(** [cssSelectorBuilder.<category>(value)] *)
Definition facade (c : call) : M loc :=
  match c with
  | Element v => cssSelectorBuilder.element v
  | Id v => cssSelectorBuilder.id v
  | Class v => cssSelectorBuilder.class v
  | Attr v => cssSelectorBuilder.attr v
  | PseudoClass v => cssSelectorBuilder.pseudoClass v
  | PseudoElement v => cssSelectorBuilder.pseudoElement v
  end.

(** [this.c1(v1).c2(v2)...]: each method is called on what the previous one
    returned; the first throw ends the chain. *)
Fixpoint chain (cs : list call) (this : loc) : M loc :=
  match cs with
  | [] => ret this
  | c :: cs' => next <- invoke c this;; chain cs' next
  end.

(** [cssSelectorBuilder.c(v).c1(v1).c2(v2)...] *)
Definition start (c : call) (cs : list call) : M loc :=
  this <- facade c;; chain cs this.

(** [cssSelectorBuilder.c(v).c1(v1).c2(v2)...stringify()] *)
Definition build (c : call) (cs : list call) : M string :=
  this <- facade c;;
  last <- chain cs this;;
  MySelectorsClass.stringify last.

(** The calls of a chain in the order
    element? id? class* attr* pseudoClass* pseudoElement?. *)
Definition ordered_calls (el id : option string) (classes attrs pseudoClasses : list string)
    (pe : option string) : list call :=
  option_list (Element <$> el) ++ option_list (Id <$> id)
  ++ (Class <$> classes) ++ (Attr <$> attrs) ++ (PseudoClass <$> pseudoClasses)
  ++ option_list (PseudoElement <$> pe).

Definition concat_strings (l : list string) : string :=
  foldr String.append "" l.

(** The literal concatenation the selector syntax prescribes for such a chain. *)
Definition literal (el id : option string) (classes attrs pseudoClasses : list string)
    (pe : option string) : string :=
  default "" el
  +:+ from_option (λ v, "#" +:+ v) "" id
  +:+ concat_strings ((λ v, "." +:+ v) <$> classes)
  +:+ concat_strings ((λ v, "[" +:+ v +:+ "]") <$> attrs)
  +:+ concat_strings ((λ v, ":" +:+ v) <$> pseudoClasses)
  +:+ from_option (λ v, "::" +:+ v) "" pe.

(** ** Client statements *)

(** Any statement a client can run against the builder API.  A statement that
    throws is taken to be caught by the client, who carries on with the heap
    as the throw left it. *)
Inductive action : Type :=
  | Call (this : loc) (c : call)
  | Combine (this val1 : loc) (com : string) (val2 : loc)
  | Create (c : call)
  | CreateCombined (selector1 : loc) (combinator : string) (selector2 : loc)
  | Stringify (this : loc).

Definition perform (a : action) (h : heap) : heap :=
  match a with
  | Call this c => (invoke c this h).1
  | Combine this val1 com val2 => (MySelectorsClass.combine this val1 com val2 h).1
  | Create c => (facade c h).1
  | CreateCombined s1 com s2 => (cssSelectorBuilder.combine s1 com s2 h).1
  | Stringify this => (MySelectorsClass.stringify this h).1
  end.

Definition perform_all (acts : list action) (h : heap) : heap :=
  foldl (λ h' a, perform a h') h acts.

(** No flag that is set in [o] is cleared in [o']. *)
Definition flags_kept (o o' : instance) : Prop :=
  (isElementCalled o = true → isElementCalled o' = true)
  ∧ (isIdCalled o = true → isIdCalled o' = true)
  ∧ (isPseudoElementCalled o = true → isPseudoElementCalled o' = true).

(** ** Reachable builder states *)

(** [reachable cs o]: [o] is the state of a builder obtained from the facade
    by category calls, and [cs] lists, oldest first, the calls that returned
    normally, that is the fragments appended so far.  A call that throws is
    caught and the builder is used further. *)
Inductive reachable : list call → instance → Prop :=
  | reach_facade c h h' this o :
      facade c h = (h', Normal this) →
      h' !! this = Some o →
      reachable [c] o
  | reach_call cs o c h this h' next o' :
      reachable cs o →
      h !! this = Some o →
      invoke c this h = (h', Normal next) →
      h' !! next = Some o' →
      reachable (cs ++ [c]) o'
  | reach_throw cs o c h this h' e o' :
      reachable cs o →
      h !! this = Some o →
      invoke c this h = (h', Throw e) →
      h' !! this = Some o' →
      reachable cs o'.

(** [used k cs]: some call of [cs] has category ordinal [k]. *)
Definition used (k : Z) (cs : list call) : bool :=
  existsb (λ c, ordinal c =? k) cs.

(** What holds of every reachable state [o] with appended calls [cs]: the
    ordinals appended never decrease, [order] is the last of them and bounds
    them all, and the three flags record which singleton categories occur. *)
Record invariant (cs : list call) (o : instance) : Prop := {
  inv_sorted : Sorted Z.le (ordinal <$> cs);
  inv_last : last (ordinal <$> cs) = Some (order o);
  inv_bound : Forall (λ c, ordinal c ≤ order o) cs;
  inv_element : isElementCalled o = used 1 cs;
  inv_id : isIdCalled o = used 2 cs;
  inv_pseudoElement : isPseudoElementCalled o = used 6 cs
}.

(** ** Summary of one category call *)

(** The check at the head of each category method: the message it throws in
    state [o], if any. *)
Definition rejects (c : call) (o : instance) : option string :=
  match c with
  | Element _ =>
      if isElementCalled o then Some MySelectorsClass.duplicate_error
      else if 1 <? order o then Some MySelectorsClass.order_error else None
  | Id _ =>
      if isIdCalled o then Some MySelectorsClass.duplicate_error
      else if 2 <? order o then Some MySelectorsClass.order_error else None
  | Class _ => if 3 <? order o then Some MySelectorsClass.order_error else None
  | Attr _ => if 4 <? order o then Some MySelectorsClass.order_error else None
  | PseudoClass _ => if 5 <? order o then Some MySelectorsClass.order_error else None
  | PseudoElement _ =>
      if isPseudoElementCalled o then Some MySelectorsClass.duplicate_error else None
  end.

(** The assignments that follow the check. *)
Definition appended (c : call) (o : instance) : instance :=
  {| selector := selector o +:+ fragment c;
     isElementCalled := match c with Element _ => true | _ => isElementCalled o end;
     isIdCalled := match c with Id _ => true | _ => isIdCalled o end;
     isPseudoElementCalled :=
       match c with PseudoElement _ => true | _ => isPseudoElementCalled o end;
     order := ordinal c |}.

(** ** The documented examples and some concrete states *)

(** The double quote character, for selector texts that contain one. *)
Definition dquote : string := String "034"%char EmptyString.

(** The attribute expression of the documented example, [href$=".png"]. *)
Definition href_png : string := "href$=" +:+ dquote +:+ ".png" +:+ dquote.

(** [cssSelectorBuilder.combine(cssSelectorBuilder.element('div'), '+',
    cssSelectorBuilder.element('span')).stringify()] *)
Definition combine_div_span : M string :=
  a <- cssSelectorBuilder.element "div";;
  b <- cssSelectorBuilder.element "span";;
  r <- cssSelectorBuilder.combine a "+" b;;
  MySelectorsClass.stringify r.

(** [cssSelectorBuilder.element('div').combine(cssSelectorBuilder.element('div'),
    '+', cssSelectorBuilder.element('span')).stringify()]: the first operand
    is another builder whose text is also ["div"]. *)
Definition div_combine_div_span : M string :=
  r <- cssSelectorBuilder.element "div";;
  a <- cssSelectorBuilder.element "div";;
  b <- cssSelectorBuilder.element "span";;
  r' <- MySelectorsClass.combine r a "+" b;;
  MySelectorsClass.stringify r'.

(** [const s = cssSelectorBuilder.element('div');
    s.combine(s, '+', cssSelectorBuilder.element('span')).stringify()]: the
    first operand is the receiver itself. *)
Definition div_combine_self_span : M string :=
  s <- cssSelectorBuilder.element "div";;
  b <- cssSelectorBuilder.element "span";;
  r' <- MySelectorsClass.combine s s "+" b;;
  MySelectorsClass.stringify r'.

(** The state of [cssSelectorBuilder.id('main')] and of
    [cssSelectorBuilder.id('main').class('container')]. *)
Definition id_main : instance := Instance_ "#main" false true false 2.
Definition id_main_container : instance := Instance_ "#main.container" false true false 3.

(** [const s = cssSelectorBuilder.element('div'); s.combine(s, '+', s)]:
    the heap before and after the [combine]. *)
Definition div_alone : heap := (cssSelectorBuilder.element "div" []).1.
Definition div_self_combined : heap :=
  (MySelectorsClass.combine 0%nat 0%nat "+" 0%nat div_alone).1.

(** ** Notions for the further properties *)

(** The flag a singleton category tests and sets; repeatable categories have
    none. *)
Definition flag_of (c : call) (o : instance) : bool :=
  match c with
  | Element _ => isElementCalled o
  | Id _ => isIdCalled o
  | PseudoElement _ => isPseudoElementCalled o
  | Class _ | Attr _ | PseudoClass _ => false
  end.

(** [admits o c]: [c] does not come before the last category recorded in [o]
    and its flag, if it has one, is clear. *)
Definition admits (o : instance) (c : call) : Prop :=
  order o ≤ ordinal c ∧ flag_of c o = false.

(** What a call [c] meets on a builder whose appended calls are [cs], told
    from [cs] alone: the duplicate error, the ordering error, or nothing. *)
Definition verdict (cs : list call) (c : call) : option string :=
  if singleton c && used (ordinal c) cs then Some MySelectorsClass.duplicate_error
  else if ordinal c <? default 0 (last (ordinal <$> cs))
       then Some MySelectorsClass.order_error
       else None.

(** How one client statement can change an object that exists: a category
    method passes its check and appends, or [combine] overwrites the text. *)
Definition step (o o' : instance) : Prop :=
  (∃ c, rejects c o = None ∧ o' = appended c o) ∨ (∃ s, o' = set_selector s o).

(** The objects one client statement can add to the heap. *)
Definition born (o' : instance) : Prop :=
  o' = MySelectorsClass.constructed
  ∨ (∃ c, o' = appended c MySelectorsClass.constructed)
  ∨ (∃ s, o' = set_selector s MySelectorsClass.constructed).

(** The agreement between [order] and the three flags. *)
Definition consistent (o : instance) : Prop :=
  0 ≤ order o ≤ 6
  ∧ (isPseudoElementCalled o = true ↔ order o = 6)
  ∧ (isElementCalled o = true → 1 ≤ order o)
  ∧ (isIdCalled o = true → 2 ≤ order o)
  ∧ (order o = 1 → isElementCalled o = true)
  ∧ (order o = 2 → isIdCalled o = true).

(** The heaps a client can build: any statements run from the empty heap. *)
Definition built (h : heap) : Prop := ∃ acts, h = perform_all acts [].

(** [cssSelectorBuilder.combine(a, com, b).<category>(value).stringify()] *)
Definition combine_then (a : loc) (com : string) (b : loc) (c : call) : M string :=
  r <- cssSelectorBuilder.combine a com b;;
  r' <- invoke c r;;
  MySelectorsClass.stringify r'.

(** [combine(combine(a, c1, b), c2, d).stringify()] and
    [combine(a, c1, combine(b, c2, d)).stringify()] on the facade. *)
Definition combine_left (a : loc) (c1 : string) (b : loc) (c2 : string) (d : loc) : M string :=
  ab <- cssSelectorBuilder.combine a c1 b;;
  r <- cssSelectorBuilder.combine ab c2 d;;
  MySelectorsClass.stringify r.

Definition combine_right (a : loc) (c1 : string) (b : loc) (c2 : string) (d : loc) : M string :=
  bd <- cssSelectorBuilder.combine b c2 d;;
  r <- cssSelectorBuilder.combine a c1 bd;;
  MySelectorsClass.stringify r.

(** * Proofs *)

(** ** Reading and writing through a live reference *)

Lemma read_live {A} (f : instance → A) this (h : heap) o :
  h !! this = Some o → read f this h = (h, Normal (f o)).
Proof. intros H. unfold read. by rewrite H. Qed.

Lemma write_live upd this (h : heap) o :
  h !! this = Some o → write upd this h = (<[this := upd o]> h, Normal tt).
Proof. intros H. unfold write. by rewrite H. Qed.

Lemma lookup_overwritten (h : heap) this o o' :
  h !! this = Some o → <[this := o']> h !! this = Some o'.
Proof. intros H. apply list_lookup_insert_eq. by eapply lookup_lt_Some. Qed.

Lemma bind_normal {A B} (m : M A) (k : A → M B) h h' a :
  m h = (h', Normal a) → bind m k h = k a h'.
Proof. intros H. unfold bind. by rewrite H. Qed.

(** ** One category call *)

(** A category call on a live receiver throws the message of its check and
    touches nothing, or passes the check, performs its assignments on the
    receiver and returns it. *)
Lemma invoke_live c this (h : heap) o :
  h !! this = Some o →
  invoke c this h =
    match rejects c o with
    | Some e => (h, Throw e)
    | None => (<[this := appended c o]> h, Normal this)
    end.
Proof.
  intros H.
  assert (Hlt : (this < length h)%nat) by (by eapply lookup_lt_Some).
  destruct o as [sel e i p n].
  destruct c; cbn [invoke rejects isElementCalled isIdCalled isPseudoElementCalled order];
    unfold MySelectorsClass.element, MySelectorsClass.id, MySelectorsClass.class,
      MySelectorsClass.attr, MySelectorsClass.pseudoClass, MySelectorsClass.pseudoElement,
      bind, read, write, ret, throw;
    repeat first
      [ rewrite H
      | rewrite list_lookup_insert_eq by (by rewrite ?length_insert)
      | rewrite list_insert_insert_eq
      | progress cbn
      | match goal with |- (if ?b then _ else _) _ = _ => destruct b end ];
    reflexivity.
Qed.

Lemma invoke_dangling c this (h : heap) :
  h !! this = None → invoke c this h = (h, Throw no_object).
Proof.
  intros H.
  destruct c; cbn [invoke];
    unfold MySelectorsClass.element, MySelectorsClass.id, MySelectorsClass.class,
      MySelectorsClass.attr, MySelectorsClass.pseudoClass, MySelectorsClass.pseudoElement,
      bind, read;
    by rewrite H.
Qed.

(** A builder fresh from its constructor passes every check. *)
Lemma rejects_constructed c : rejects c MySelectorsClass.constructed = None.
Proof. by destruct c. Qed.

Lemma lookup_new (h : heap) o : (h ++ [o]) !! length h = Some o.
Proof. by apply list_lookup_middle. Qed.

Lemma insert_new (h : heap) o o' : <[length h := o']> (h ++ [o]) = h ++ [o'].
Proof.
  replace (length h) with (length h + 0)%nat by lia.
  by rewrite insert_app_r.
Qed.

(** A facade entry point allocates one object, appends its fragment to it and
    returns the reference to it; it never throws. *)
Lemma facade_new c (h : heap) :
  facade c h = (h ++ [appended c MySelectorsClass.constructed], Normal (length h)).
Proof.
  assert (H : ∀ m, m = invoke c →
    bind MySelectorsClass.new (λ this, m this) h
    = (h ++ [appended c MySelectorsClass.constructed], Normal (length h))).
  { intros m ->. unfold bind, MySelectorsClass.new.
    rewrite (invoke_live c _ _ _ (lookup_new h _)), rejects_constructed.
    by rewrite insert_new. }
  destruct c; apply H; reflexivity.
Qed.

Lemma facade_allocated c (h h' : heap) r :
  facade c h = (h', r) →
  r = Normal (length h) ∧ is_Some (h' !! length h) ∧ ∀ l o, h !! l = Some o → h' !! l = Some o.
Proof.
  rewrite facade_new. intros [= <- <-]. split_and!; [done | |].
  - rewrite lookup_new. by eexists.
  - intros l o. apply lookup_app_l_Some.
Qed.

(** ** Text of a chain *)

Lemma append_nil_r (s : string) : s +:+ "" = s.
Proof.
  induction s as [|a s IH]; [done |].
  change (String a (s +:+ "") = String a s). by f_equal.
Qed.

Lemma append_assoc (s1 s2 s3 : string) : (s1 +:+ s2) +:+ s3 = s1 +:+ s2 +:+ s3.
Proof.
  induction s1 as [|a s1 IH]; [done |].
  change (String a ((s1 +:+ s2) +:+ s3) = String a (s1 +:+ s2 +:+ s3)). by f_equal.
Qed.

Lemma concat_strings_app (l1 l2 : list string) :
  concat_strings (l1 ++ l2) = concat_strings l1 +:+ concat_strings l2.
Proof.
  induction l1 as [|s l1 IH]; simpl; [done |].
  by rewrite IH, append_assoc.
Qed.

(** ** Chains in selector order are accepted *)

(** A check passed before [c] was appended is still passed afterwards by
    every call that may follow [c]. *)
Lemma rejects_after c c' o :
  follows c c' → rejects c' o = None → rejects c' (appended c o) = None.
Proof.
  unfold follows.
  destruct c, c'; cbn; intros [? | [? ?]]; try lia; try discriminate;
    repeat case_match; try done; lia.
Qed.

Lemma chain_follows cs : ∀ this (h : heap) o,
  h !! this = Some o →
  StronglySorted follows cs →
  Forall (λ c, rejects c o = None) cs →
  ∃ o', chain cs this h = (<[this := o']> h, Normal this)
        ∧ selector o' = selector o +:+ concat_strings (fragment <$> cs).
Proof.
  induction cs as [|c cs IH]; intros this h o Hl Hs Hr.
  - exists o. cbn. unfold ret. rewrite list_insert_id by done.
    by rewrite append_nil_r.
  - apply StronglySorted_cons in Hs as [Hc Hs].
    apply Forall_cons in Hr as [Hr Hrs].
    destruct (IH this (<[this := appended c o]> h) (appended c o)) as (o' & Hrun & Hsel).
    + by eapply lookup_overwritten.
    + done.
    + rewrite Forall_forall in *. intros c' Hin. apply rejects_after; auto.
    + exists o'. cbn [chain]. unfold bind.
      rewrite (invoke_live c this h o Hl), Hr, Hrun, list_insert_insert_eq.
      split; [done |]. rewrite Hsel. cbn. by rewrite append_assoc.
Qed.

(** Calls of one repeatable category are sorted for [follows]. *)
Lemma repeated_follows (f : string → call) (l : list string) :
  (∀ v w, follows (f v) (f w)) → StronglySorted follows (f <$> l).
Proof.
  intros Hf. induction l as [|v l IH]; cbn; constructor; [done |].
  apply Forall_forall. intros c [w [-> _]]%list_elem_of_fmap. apply Hf.
Qed.

Lemma ordinal_fmap (f : string → call) k (l : list string) c :
  (∀ v, ordinal (f v) = k) → c ∈ f <$> l → ordinal c = k.
Proof. intros Hf [v [-> _]]%list_elem_of_fmap. apply Hf. Qed.

Lemma ordinal_option (f : string → call) k (x : option string) c :
  (∀ v, ordinal (f v) = k) → c ∈ option_list (f <$> x) → ordinal c = k.
Proof.
  intros Hf. destruct x as [v|]; cbn.
  - intros ->%list_elem_of_singleton. apply Hf.
  - by intros ?%elem_of_nil.
Qed.

(** The call list of a chain in selector order is sorted for [follows]. *)
Lemma ordered_calls_follows el id classes attrs pseudoClasses pe :
  StronglySorted follows (ordered_calls el id classes attrs pseudoClasses pe).
Proof.
  assert (Hopt : ∀ (f : string → call) (x : option string),
            StronglySorted follows (option_list (f <$> x))).
  { intros f [v|]; cbn; repeat constructor. }
  unfold ordered_calls.
  repeat (apply StronglySorted_app_2;
          [ | first [apply Hopt | apply repeated_follows; intros; right; done] | ]);
    try apply Hopt.
  all: intros c c' Hc Hc'; left.
  all: repeat setoid_rewrite elem_of_app in Hc'.
  all: first [ eapply ordinal_option in Hc; [| intros; cbn; reflexivity]
             | eapply ordinal_fmap in Hc; [| intros; cbn; reflexivity] ].
  all: destruct_or?.
  all: first [ eapply ordinal_option in Hc'; [| intros; cbn; reflexivity]
             | eapply ordinal_fmap in Hc'; [| intros; cbn; reflexivity] ].
  all: lia.
Qed.

Lemma literal_fragments el id classes attrs pseudoClasses pe :
  concat_strings (fragment <$> ordered_calls el id classes attrs pseudoClasses pe)
  = literal el id classes attrs pseudoClasses pe.
Proof.
  assert (Hopt : ∀ (f : string → call) (x : option string),
            concat_strings (fragment <$> option_list (f <$> x))
            = from_option (λ v, fragment (f v)) "" x).
  { intros f [v|]; cbn; [apply append_nil_r | done]. }
  assert (Hrep : ∀ (f : string → call) (l : list string),
            concat_strings (fragment <$> (f <$> l))
            = concat_strings ((λ v, fragment (f v)) <$> l)).
  { intros f l. by rewrite <- list_fmap_compose. }
  unfold ordered_calls, literal.
  rewrite !fmap_app, !concat_strings_app, !Hopt, !Hrep.
  by destruct el.
Qed.

(** ** stringify and combine *)

Lemma stringify_live this (h : heap) o :
  h !! this = Some o → MySelectorsClass.stringify this h = (h, Normal (selector o)).
Proof. apply read_live. Qed.

Lemma stringify_normal this (h h' : heap) s :
  MySelectorsClass.stringify this h = (h', Normal s) →
  h' = h ∧ ∃ o, h !! this = Some o ∧ selector o = s.
Proof.
  unfold MySelectorsClass.stringify, read.
  destruct (h !! this) as [o|]; intros [= <- <-]; eauto.
Qed.

(** [combine] on live operands and a live receiver overwrites the receiver's
    text and nothing else. *)
Lemma combine_live this a com b (h : heap) o oa ob :
  h !! this = Some o → h !! a = Some oa → h !! b = Some ob →
  MySelectorsClass.combine this a com b h
  = (<[this := set_selector (selector oa +:+ " " +:+ com +:+ " " +:+ selector ob) o]> h,
     Normal this).
Proof.
  intros H Ha Hb. unfold MySelectorsClass.combine.
  rewrite (bind_normal _ _ _ _ _ (stringify_live a h oa Ha)).
  rewrite (bind_normal _ _ _ _ _ (stringify_live b h ob Hb)).
  by rewrite (bind_normal _ _ _ _ _ (write_live _ this h o H)).
Qed.

(** Whatever the references denote, [combine] changes at most the receiver. *)
Lemma combine_frame this a com b (h : heap) l :
  l ≠ this → (MySelectorsClass.combine this a com b h).1 !! l = h !! l.
Proof.
  intros Hne.
  unfold MySelectorsClass.combine, MySelectorsClass.stringify, bind, read, write, ret.
  destruct (h !! a); [| done]. destruct (h !! b); [| done].
  destruct (h !! this); [| done]. cbn. by apply list_lookup_insert_ne.
Qed.

Lemma facade_combine_live a com b (h : heap) oa ob :
  h !! a = Some oa → h !! b = Some ob →
  cssSelectorBuilder.combine a com b h
  = (h ++ [set_selector (selector oa +:+ " " +:+ com +:+ " " +:+ selector ob)
             MySelectorsClass.constructed],
     Normal (length h)).
Proof.
  intros Ha Hb. unfold cssSelectorBuilder.combine, bind at 1, MySelectorsClass.new.
  rewrite (combine_live _ a com b _ MySelectorsClass.constructed oa ob).
  - by rewrite insert_new.
  - apply lookup_new.
  - by apply lookup_app_l_Some.
  - by apply lookup_app_l_Some.
Qed.

(** ** The invariant of reachable states *)

Lemma invoke_normal c this (h h' : heap) o next :
  h !! this = Some o →
  invoke c this h = (h', Normal next) →
  rejects c o = None ∧ next = this ∧ h' = <[this := appended c o]> h
  ∧ h' !! this = Some (appended c o).
Proof.
  intros Hl. rewrite (invoke_live c this h o Hl).
  destruct (rejects c o); intros [= <- <-].
  split_and!; try done. by eapply lookup_overwritten.
Qed.

Lemma invoke_throw c this (h h' : heap) o e :
  h !! this = Some o →
  invoke c this h = (h', Throw e) →
  rejects c o = Some e ∧ h' = h.
Proof.
  intros Hl. rewrite (invoke_live c this h o Hl).
  destruct (rejects c o); by intros [= <- <-].
Qed.

Lemma ordinal_range c : 1 ≤ ordinal c ≤ 6.
Proof. destruct c; cbn; lia. Qed.

(** Passing the check means the category does not come before the last one
    appended (for [pseudoElement], which has no order check, because no
    ordinal exceeds its own). *)
Lemma accepted_order c o : order o ≤ 6 → rejects c o = None → order o ≤ ordinal c.
Proof. destruct c; cbn; repeat case_match; intros; try done; lia. Qed.

(** A call that does not come before the last category appended is never
    rejected for its order. *)
Lemma accepted_or_other c o :
  order o ≤ ordinal c → rejects c o ≠ Some MySelectorsClass.order_error.
Proof.
  assert (Hne : Some MySelectorsClass.duplicate_error ≠ Some MySelectorsClass.order_error)
    by discriminate.
  destruct c; cbn; intros Hle;
    repeat match goal with
    | |- context [if ?b then _ else _] =>
        match b with
        | _ <? _ => destruct (Z.ltb_spec0 1 (order o)), (Z.ltb_spec0 2 (order o)),
                      (Z.ltb_spec0 3 (order o)), (Z.ltb_spec0 4 (order o)),
                      (Z.ltb_spec0 5 (order o))
        | _ => destruct b
        end
    end; try done; lia.
Qed.

Lemma used_snoc k cs c : used k (cs ++ [c]) = used k cs || (ordinal c =? k).
Proof. unfold used. rewrite existsb_app. cbn. by rewrite orb_false_r. Qed.

Lemma accepted_unused c o :
  rejects c o = None →
  (ordinal c = 1 → isElementCalled o = false)
  ∧ (ordinal c = 2 → isIdCalled o = false)
  ∧ (ordinal c = 6 → isPseudoElementCalled o = false).
Proof. destruct c; cbn; repeat case_match; intros; split_and!; intros; done. Qed.

Lemma invariant_order_range cs o : invariant cs o → 1 ≤ order o ≤ 6.
Proof.
  intros [_ Hlast _ _ _ _].
  apply last_Some in Hlast as [l Hl].
  assert (Hin : order o ∈ ordinal <$> cs) by (rewrite Hl, elem_of_app, list_elem_of_singleton; by right).
  apply list_elem_of_fmap in Hin as (c & -> & _). apply ordinal_range.
Qed.

Lemma invariant_first c : invariant [c] (appended c MySelectorsClass.constructed).
Proof.
  split; cbn.
  - repeat constructor.
  - done.
  - repeat constructor. lia.
  - by destruct c.
  - by destruct c.
  - by destruct c.
Qed.

Lemma invariant_appended cs o c :
  invariant cs o → rejects c o = None → invariant (cs ++ [c]) (appended c o).
Proof.
  intros Hinv Hacc.
  pose proof (invariant_order_range _ _ Hinv) as Hrange.
  pose proof (accepted_order c o (proj2 Hrange) Hacc) as Hle.
  destruct (accepted_unused c o Hacc) as (He & Hi & Hp).
  destruct Hinv as [Hsorted Hlast Hbound Hel Hid Hpe].
  split; rewrite ?fmap_app, ?used_snoc; cbn [fmap list_fmap appended order
    isElementCalled isIdCalled isPseudoElementCalled].
  - apply Sorted_snoc; [done |].
    apply last_Some in Hlast as [l ->]. by constructor.
  - apply last_snoc.
  - apply Forall_app. split.
    + eapply Forall_impl; [exact Hbound |]. cbn. intros; lia.
    + repeat constructor. lia.
  - rewrite <- Hel. destruct c; cbn; rewrite ?orb_false_r; try done.
    by rewrite orb_true_r.
  - rewrite <- Hid. destruct c; cbn; rewrite ?orb_false_r; try done.
    by rewrite orb_true_r.
  - rewrite <- Hpe. destruct c; cbn; rewrite ?orb_false_r; try done.
    by rewrite orb_true_r.
Qed.

Lemma reachable_invariant cs o : reachable cs o → invariant cs o.
Proof.
  induction 1 as [c h h' this o Hf Hl
                 | cs o c h this h' next o' _ IH Hl Hcall Hl'
                 | cs o c h this h' e o' _ IH Hl Hcall Hl'].
  - rewrite facade_new in Hf. injection Hf as <- <-.
    rewrite lookup_new in Hl. injection Hl as <-. apply invariant_first.
  - destruct (invoke_normal _ _ _ _ _ _ Hl Hcall) as (Hacc & -> & _ & Hnew).
    rewrite Hnew in Hl'. injection Hl' as <-. by apply invariant_appended.
  - destruct (invoke_throw _ _ _ _ _ _ Hl Hcall) as (_ & ->).
    rewrite Hl in Hl'. by injection Hl' as <-.
Qed.

(** ** Client statements keep live objects live and flags set *)

Lemma stringify_pure this (h : heap) : (MySelectorsClass.stringify this h).1 = h.
Proof. unfold MySelectorsClass.stringify, read. by destruct (h !! this). Qed.

Lemma facade_combine_frame a com b (h : heap) l o :
  h !! l = Some o → (cssSelectorBuilder.combine a com b h).1 !! l = Some o.
Proof.
  intros Hl.
  change (cssSelectorBuilder.combine a com b h)
    with (MySelectorsClass.combine (length h) a com b (h ++ [MySelectorsClass.constructed])).
  rewrite combine_frame.
  - by apply lookup_app_l_Some.
  - apply lookup_lt_Some in Hl. lia.
Qed.

Lemma flags_kept_refl o : flags_kept o o.
Proof. by split_and!. Qed.

Lemma flags_kept_trans o1 o2 o3 : flags_kept o1 o2 → flags_kept o2 o3 → flags_kept o1 o3.
Proof. intros (? & ? & ?) (? & ? & ?). split_and!; auto. Qed.

Lemma flags_kept_appended c o : flags_kept o (appended c o).
Proof. unfold flags_kept. destruct c; cbn; split_and!; auto. Qed.

Lemma perform_live a (h : heap) l o :
  h !! l = Some o → ∃ o', perform a h !! l = Some o' ∧ flags_kept o o'.
Proof.
  intros Hl. destruct a as [this c | this val1 com val2 | c | s1 com s2 | this]; cbn [perform].
  - destruct (h !! this) as [o0|] eqn:Hthis.
    + rewrite (invoke_live c this h o0 Hthis). destruct (rejects c o0); cbn.
      { eauto using flags_kept_refl. }
      destruct (decide (this = l)) as [-> | Hne].
      * rewrite (lookup_overwritten h l o0) by done.
        assert (o0 = o) as -> by congruence. eauto using flags_kept_appended.
      * rewrite list_lookup_insert_ne by done. eauto using flags_kept_refl.
    + rewrite (invoke_dangling c this h Hthis). eauto using flags_kept_refl.
  - destruct (decide (l = this)) as [-> | Hne].
    + unfold MySelectorsClass.combine, MySelectorsClass.stringify, bind, read, write, ret.
      destruct (h !! val1); [| eauto using flags_kept_refl].
      destruct (h !! val2); [| eauto using flags_kept_refl].
      rewrite Hl. cbn. rewrite (lookup_overwritten h this o) by done.
      eexists. split; [done |]. by split_and!.
    + rewrite combine_frame by done. eauto using flags_kept_refl.
  - rewrite facade_new. cbn. erewrite lookup_app_l_Some by done. eauto using flags_kept_refl.
  - erewrite facade_combine_frame by done. eauto using flags_kept_refl.
  - rewrite stringify_pure. eauto using flags_kept_refl.
Qed.

Lemma perform_all_live acts : ∀ (h : heap) l o,
  h !! l = Some o → ∃ o', perform_all acts h !! l = Some o' ∧ flags_kept o o'.
Proof.
  induction acts as [|a acts IH]; intros h l o Hl; cbn.
  - eauto using flags_kept_refl.
  - destruct (perform_live a h l o Hl) as (o1 & Hl1 & Hk1).
    destruct (IH (perform a h) l o1 Hl1) as (o2 & Hl2 & Hk2).
    eauto using flags_kept_trans.
Qed.

(** Once a singleton category was appended, its flag makes every later call
    of that category throw the duplicate error. *)
Lemma rejects_duplicate c c' o o' :
  singleton c = true → same_category c c' = true →
  flags_kept (appended c o) o' →
  rejects c' o' = Some MySelectorsClass.duplicate_error.
Proof.
  unfold flags_kept.
  destruct c, c'; cbn; intros ? ? (He & Hi & Hp); try done.
  - by rewrite He.
  - by rewrite Hi.
  - by rewrite Hp.
Qed.

(** A repeatable category is accepted again right after itself. *)
Lemma rejects_repeated c c' o :
  singleton c = false → same_category c c' = true → rejects c' (appended c o) = None.
Proof. by destruct c, c'. Qed.

Lemma start_pair c c' (h : heap) :
  start c [c'] h =
    match rejects c' (appended c MySelectorsClass.constructed) with
    | Some e => (h ++ [appended c MySelectorsClass.constructed], Throw e)
    | None =>
        (h ++ [appended c' (appended c MySelectorsClass.constructed)], Normal (length h))
    end.
Proof.
  unfold start. rewrite (bind_normal _ _ _ _ _ (facade_new c h)).
  cbn [chain]. unfold bind.
  rewrite (invoke_live c' _ _ _ (lookup_new h _)).
  destruct (rejects c' _); [done |]. by rewrite insert_new.
Qed.

(** * The claims *)

(** C1.  A chain of category calls on the facade in selector order (at most
    one element, then at most one id, then classes, attributes,
    pseudo-classes, then at most one pseudo-element) returns normally, and
    [stringify()] on it returns the literal concatenation of the fragments
    with their prefixes.  The two documented examples are instances. *)
Theorem stringify_ordered_chain :
  (∀ el id classes attrs pseudoClasses pe c cs (h : heap),
     ordered_calls el id classes attrs pseudoClasses pe = c :: cs →
     ∃ h', build c cs h = (h', Normal (literal el id classes attrs pseudoClasses pe)))
  ∧ (∀ h : heap, ∃ h',
       build (Id "main") [Class "container"; Class "editable"] h
       = (h', Normal "#main.container.editable"))
  ∧ (∀ h : heap, ∃ h',
       build (Element "a") [Attr href_png; PseudoClass "focus"] h
       = (h', Normal ("a[" +:+ href_png +:+ "]:focus"))).
Proof.
  assert (Hgen : ∀ el id classes attrs pseudoClasses pe c cs (h : heap),
     ordered_calls el id classes attrs pseudoClasses pe = c :: cs →
     ∃ h', build c cs h = (h', Normal (literal el id classes attrs pseudoClasses pe))).
  { intros el id classes attrs pseudoClasses pe c cs h Hcs.
    pose proof (ordered_calls_follows el id classes attrs pseudoClasses pe) as Hs.
    rewrite Hcs in Hs. apply StronglySorted_cons in Hs as [Hc Hs].
    destruct (chain_follows cs (length h)
                (h ++ [appended c MySelectorsClass.constructed])
                (appended c MySelectorsClass.constructed)) as (o' & Hrun & Hsel).
    - apply lookup_new.
    - done.
    - rewrite Forall_forall in *. intros c' Hin.
      apply rejects_after; [auto | apply rejects_constructed].
    - eexists. unfold build.
      rewrite (bind_normal _ _ _ _ _ (facade_new c h)).
      rewrite (bind_normal _ _ _ _ _ Hrun).
      rewrite (stringify_live _ _ o') by (eapply lookup_overwritten, lookup_new).
      rewrite Hsel, <- literal_fragments, Hcs. reflexivity. }
  split_and!; [exact Hgen | |]; intros h.
  - apply (Hgen None (Some "main") ["container"; "editable"] [] [] None). reflexivity.
  - apply (Hgen (Some "a") None [] [href_png] ["focus"] None). reflexivity.
Qed.

Lemma stringify_ordered_chain_witness :
  ∃ h', build (Element "div") [Id "main"; Class "container"; Class "draggable";
                                Attr "data-x"; PseudoClass "hover"; PseudoElement "after"] []
        = (h', Normal "div#main.container.draggable[data-x]:hover::after").
Proof.
  apply (proj1 stringify_ordered_chain (Some "div") (Some "main") ["container"; "draggable"]
           ["data-x"] ["hover"] (Some "after")).
  reflexivity.
Defined.

(** C2.  In every state reachable from the facade by category calls, the
    ordinals of the appended fragments never decrease and [order] is the
    ordinal of the last one; a call whose ordinal is below [order] throws, a
    call whose ordinal is at least [order] does not throw the ordering error,
    and a call that returns normally appended a fragment whose ordinal is at
    least the previous [order], and is the new [order]. *)
Theorem order_invariant cs o :
  reachable cs o →
  Sorted Z.le (ordinal <$> cs)
  ∧ last (ordinal <$> cs) = Some (order o)
  ∧ ∀ c this (h : heap), h !! this = Some o →
      (ordinal c < order o → ∃ e, (invoke c this h).2 = Throw e)
      ∧ (order o ≤ ordinal c → (invoke c this h).2 ≠ Throw MySelectorsClass.order_error)
      ∧ (∀ h' next, invoke c this h = (h', Normal next) →
           ∃ o', h' !! next = Some o' ∧ reachable (cs ++ [c]) o'
                 ∧ order o ≤ ordinal c ∧ order o' = ordinal c).
Proof.
  intros Hreach. pose proof (reachable_invariant _ _ Hreach) as Hinv.
  pose proof (invariant_order_range _ _ Hinv) as Hrange.
  split_and!; [apply Hinv | apply Hinv |].
  intros c this h Hl. split_and!.
  - intros Hlt. rewrite (invoke_live c this h o Hl).
    destruct (rejects c o) as [e|] eqn:Hrej; [by exists e |].
    pose proof (accepted_order c o (proj2 Hrange) Hrej). lia.
  - intros Hle. rewrite (invoke_live c this h o Hl).
    pose proof (accepted_or_other c o Hle).
    destruct (rejects c o); cbn; congruence.
  - intros h' next Hcall.
    destruct (invoke_normal _ _ _ _ _ _ Hl Hcall) as (Hacc & -> & _ & Hnew).
    exists (appended c o). split_and!; [done | | | done].
    + by eapply reach_call.
    + apply accepted_order; [lia | done].
Qed.

Lemma order_invariant_witness :
  Sorted Z.le (ordinal <$> [Id "main"; Class "container"])
  ∧ last (ordinal <$> [Id "main"; Class "container"]) = Some (order id_main_container)
  ∧ ∀ c this (h : heap), h !! this = Some id_main_container →
      (ordinal c < order id_main_container → ∃ e, (invoke c this h).2 = Throw e)
      ∧ (order id_main_container ≤ ordinal c →
         (invoke c this h).2 ≠ Throw MySelectorsClass.order_error)
      ∧ (∀ h' next, invoke c this h = (h', Normal next) →
           ∃ o', h' !! next = Some o'
                 ∧ reachable ([Id "main"; Class "container"] ++ [c]) o'
                 ∧ order id_main_container ≤ ordinal c ∧ order o' = ordinal c).
Proof.
  apply (order_invariant [Id "main"; Class "container"] id_main_container).
  apply (reach_call [Id "main"] id_main (Class "container") [id_main] 0%nat
           [id_main_container] 0%nat id_main_container);
    [ apply (reach_facade (Id "main") [] [id_main] 0%nat id_main) | .. ];
    reflexivity.
Defined.

(** C3.  For all selectors [a] and [b] and every combinator string [c],
    [cssSelectorBuilder.combine(a, c, b)] returns normally, whatever the
    state of the operands, and stringifies to
    [stringify(a) + " " + c + " " + stringify(b)]; the documented example
    yields ["div + span"]. *)
Theorem facade_combine_stringify :
  (∀ (h : heap) a com b sa sb,
     MySelectorsClass.stringify a h = (h, Normal sa) →
     MySelectorsClass.stringify b h = (h, Normal sb) →
     ∃ h' r, cssSelectorBuilder.combine a com b h = (h', Normal r)
             ∧ MySelectorsClass.stringify r h'
               = (h', Normal (sa +:+ " " +:+ com +:+ " " +:+ sb)))
  ∧ (∀ h : heap, ∃ h', combine_div_span h = (h', Normal "div + span")).
Proof.
  assert (Hgen : ∀ (h : heap) a com b sa sb,
     MySelectorsClass.stringify a h = (h, Normal sa) →
     MySelectorsClass.stringify b h = (h, Normal sb) →
     ∃ h' r, cssSelectorBuilder.combine a com b h = (h', Normal r)
             ∧ MySelectorsClass.stringify r h'
               = (h', Normal (sa +:+ " " +:+ com +:+ " " +:+ sb))).
  { intros h a com b sa sb (_ & oa & Ha & <-)%stringify_normal (_ & ob & Hb & <-)%stringify_normal.
    do 2 eexists. split; [by eapply facade_combine_live |].
    by rewrite (stringify_live _ _ _ (lookup_new h _)). }
  split; [exact Hgen |].
  intros h. unfold combine_div_span, cssSelectorBuilder.element.
  change (bind MySelectorsClass.new (λ this, MySelectorsClass.element this ?v))
    with (facade (Element v)).
  rewrite (bind_normal _ _ _ _ _ (facade_new (Element "div") h)).
  rewrite (bind_normal _ _ _ _ _ (facade_new (Element "span") _)).
  destruct (Hgen ((h ++ [appended (Element "div") MySelectorsClass.constructed])
                    ++ [appended (Element "span") MySelectorsClass.constructed])
              (length h) "+"
              (length (h ++ [appended (Element "div") MySelectorsClass.constructed]))
              "div" "span") as (h' & r & Hc & Hs).
  - apply (stringify_live _ _ (appended (Element "div") MySelectorsClass.constructed)).
    apply lookup_app_l_Some, lookup_new.
  - apply (stringify_live _ _ (appended (Element "span") MySelectorsClass.constructed)).
    apply lookup_new.
  - exists h'. by rewrite (bind_normal _ _ _ _ _ Hc).
Qed.

Lemma facade_combine_stringify_witness :
  ∃ h' r, cssSelectorBuilder.combine 0%nat ">" 1%nat
            [Instance_ "ul#nav" true true false 2; Instance_ "li.item:hover" true false false 5]
          = (h', Normal r)
          ∧ MySelectorsClass.stringify r h' = (h', Normal "ul#nav > li.item:hover").
Proof.
  apply (proj1 facade_combine_stringify
           [Instance_ "ul#nav" true true false 2; Instance_ "li.item:hover" true false false 5]
           0%nat ">" 1%nat "ul#nav" "li.item:hover"); reflexivity.
Defined.

(** C4, the claim as written: it puts the order test of [element] at the
    ordinal of [id].  After [cssSelectorBuilder.id('main')] no element is
    set and [order] is 2, which does not exceed the ordinal of [id]; yet
    [element('div')] throws. *)
Lemma element_after_id_throws :
  (cssSelectorBuilder.id "main" []).1 !! 0%nat = Some id_main
  ∧ ¬ ((∃ e, (MySelectorsClass.element 0%nat "div" (cssSelectorBuilder.id "main" []).1).2
             = Throw e)
       ↔ isElementCalled id_main = true ∨ ordinal (Id "main") < order id_main).
Proof.
  split; [reflexivity |].
  intros [Himp _]. destruct Himp as [H | H].
  - by exists MySelectorsClass.order_error.
  - discriminate H.
  - cbn in H. lia.
Qed.

(** C4, amended.  [element(value)] throws exactly when element was already
    set or [order] exceeds the ordinal of [element] itself; in every other
    state it appends [value] verbatim, sets the flag and sets [order] to 1.
    On a reachable state the flag is set exactly when an element was
    appended, and [order] exceeds 1 exactly when an id, class, attribute,
    pseudo-class or pseudo-element was appended. *)
Theorem element_throws_iff :
  (∀ (h : heap) this o v, h !! this = Some o →
     ((∃ e, (MySelectorsClass.element this v h).2 = Throw e)
      ↔ isElementCalled o = true ∨ ordinal (Element v) < order o)
     ∧ (isElementCalled o = false → order o ≤ ordinal (Element v) →
        MySelectorsClass.element this v h
        = (<[this := {| selector := selector o +:+ v;
                        isElementCalled := true;
                        isIdCalled := isIdCalled o;
                        isPseudoElementCalled := isPseudoElementCalled o;
                        order := 1 |}]> h,
           Normal this)))
  ∧ (∀ cs o, reachable cs o →
       (isElementCalled o = true ↔ ∃ c, c ∈ cs ∧ is_element c = true)
       ∧ (ordinal (Element "") < order o ↔ ∃ c, c ∈ cs ∧ is_element c = false)).
Proof.
  split.
  - intros h this o v Hl.
    pose proof (invoke_live (Element v) this h o Hl) as Hcall.
    cbn [invoke rejects ordinal] in *. rewrite Hcall. clear Hcall.
    destruct (isElementCalled o) eqn:He; [| destruct (1 <? order o) eqn:Hord];
      cbn; (split; [split |]).
    + eauto.
    + eauto.
    + done.
    + right. lia.
    + eauto.
    + lia.
    + intros [e [=]].
    + intros [? | ?]; [done | lia].
    + done.
  - intros cs o Hinv%reachable_invariant.
    pose proof (invariant_order_range _ _ Hinv) as Hrange.
    destruct Hinv as [_ Hlast Hbound Hel _ _]. split.
    + rewrite Hel. unfold used. rewrite existsb_exists. split.
      * intros (c & Hin%list_elem_of_In & Hc). exists c. split; [done |].
        destruct c; cbn in *; done.
      * intros (c & Hin%list_elem_of_In & Hc). exists c. split; [done |].
        destruct c; cbn in *; done.
    + cbn [ordinal]. split.
      * intros Hlt. apply last_Some in Hlast as [l Hl].
        assert (Hin : order o ∈ ordinal <$> cs)
          by (rewrite Hl, elem_of_app, list_elem_of_singleton; by right).
        apply list_elem_of_fmap in Hin as (c & Hc & Hin).
        exists c. split; [done |]. destruct c; cbn in *; [lia | done..].
      * intros (c & Hin & Hc). rewrite Forall_forall in Hbound.
        specialize (Hbound c Hin). destruct c; cbn in *; [done | lia..].
Qed.

Lemma element_throws_iff_witness :
  ((∃ e, (MySelectorsClass.element 0%nat "div" [id_main_container]).2 = Throw e)
   ↔ isElementCalled id_main_container = true
     ∨ ordinal (Element "div") < order id_main_container)
  ∧ (isElementCalled id_main_container = true ↔
     ∃ c, c ∈ [Id "main"; Class "container"] ∧ is_element c = true)
  ∧ (ordinal (Element "") < order id_main_container ↔
     ∃ c, c ∈ [Id "main"; Class "container"] ∧ is_element c = false).
Proof.
  split.
  - apply (proj1 element_throws_iff [id_main_container] 0%nat id_main_container "div").
    reflexivity.
  - apply (proj2 element_throws_iff [Id "main"; Class "container"] id_main_container).
    apply (reach_call [Id "main"] id_main (Class "container") [id_main] 0%nat
             [id_main_container] 0%nat id_main_container);
      [ apply (reach_facade (Id "main") [] [id_main] 0%nat id_main) | .. ];
      reflexivity.
Defined.

(** C5.  [element], [id] and [pseudoElement] each return normally at most
    once per builder: after one of them has, every later call of the same
    category on that builder throws the duplicate error, whatever the client
    ran in between.  [class], [attr] and [pseudoClass] are accepted again
    right after themselves, any number of times.  On the facade, [element]
    twice throws, [id] after [class] throws, [class] after [attr] throws the
    ordering error, and [class] right after [class] returns normally. *)
Theorem singleton_once_repeatable_many :
  (∀ c c' this (h h1 : heap) next acts,
     singleton c = true → same_category c c' = true →
     invoke c this h = (h1, Normal next) ∨ facade c h = (h1, Normal next) →
     (invoke c' next (perform_all acts h1)).2 = Throw MySelectorsClass.duplicate_error)
  ∧ (∀ c c' this (h h1 : heap) next,
       singleton c = false → same_category c c' = true →
       invoke c this h = (h1, Normal next) ∨ facade c h = (h1, Normal next) →
       ∃ h2, invoke c' next h1 = (h2, Normal next))
  ∧ (∀ (f : string → call) v vs (h : heap),
       f = Class ∨ f = Attr ∨ f = PseudoClass →
       ∃ h' this, start (f v) (f <$> vs) h = (h', Normal this))
  ∧ (∀ v w (h : heap), ∃ h',
       start (Element v) [Element w] h = (h', Throw MySelectorsClass.duplicate_error))
  ∧ (∀ v w (h : heap), ∃ h',
       start (Class v) [Id w] h = (h', Throw MySelectorsClass.order_error))
  ∧ (∀ v w (h : heap), ∃ h',
       start (Attr v) [Class w] h = (h', Throw MySelectorsClass.order_error))
  ∧ (∀ v w (h : heap), ∃ h' this, start (Class v) [Class w] h = (h', Normal this)).
Proof.
  assert (Hcall : ∀ c this (h h1 : heap) next,
            invoke c this h = (h1, Normal next) ∨ facade c h = (h1, Normal next) →
            ∃ o, h1 !! next = Some (appended c o)).
  { intros c this h h1 next [Hc | Hc].
    - destruct (h !! this) as [o|] eqn:Hl.
      + destruct (invoke_normal _ _ _ _ _ _ Hl Hc) as (_ & -> & _ & Hnew). eauto.
      + by rewrite (invoke_dangling c this h Hl) in Hc.
    - rewrite facade_new in Hc. injection Hc as <- <-. rewrite lookup_new. eauto. }
  split_and!.
  - intros c c' this h h1 next acts Hs Hsame [o Hl]%Hcall.
    destruct (perform_all_live acts h1 next _ Hl) as (o' & Hl' & Hkept).
    rewrite (invoke_live c' next _ o' Hl').
    by rewrite (rejects_duplicate c c' o o').
  - intros c c' this h h1 next Hs Hsame [o Hl]%Hcall.
    rewrite (invoke_live c' next _ _ Hl), (rejects_repeated c c' o) by done. eauto.
  - intros f v vs h Hf. unfold start.
    rewrite (bind_normal _ _ _ _ _ (facade_new (f v) h)).
    destruct (chain_follows (f <$> vs) (length h)
                (h ++ [appended (f v) MySelectorsClass.constructed])
                (appended (f v) MySelectorsClass.constructed)) as (o' & Hrun & _).
    + apply lookup_new.
    + apply repeated_follows. intros x y. right. by destruct Hf as [-> | [-> | ->]].
    + apply Forall_forall. intros c (w & -> & _)%list_elem_of_fmap.
      by destruct Hf as [-> | [-> | ->]].
    + eauto.
  - intros v w h. rewrite start_pair. cbn. eauto.
  - intros v w h. rewrite start_pair. cbn. eauto.
  - intros v w h. rewrite start_pair. cbn. eauto.
  - intros v w h. rewrite start_pair. cbn. eauto.
Qed.

Lemma singleton_once_repeatable_many_witness :
  (invoke (Id "again") 0%nat
     (perform_all [Call 0%nat (Class "box"); Create (Element "p");
                   Combine 0%nat 1%nat ">" 1%nat; Call 0%nat (Element "div")]
        [id_main])).2
  = Throw MySelectorsClass.duplicate_error.
Proof.
  apply (proj1 singleton_once_repeatable_many (Id "main") (Id "again") 0%nat [] [id_main]);
    [reflexivity | reflexivity | right; reflexivity].
Defined.

(** C6.  A category call that throws leaves the whole heap, and so the
    receiver's text, order and three flags, exactly as it was before the
    call. *)
Theorem throw_is_atomic c this (h : heap) e :
  (invoke c this h).2 = Throw e → (invoke c this h).1 = h.
Proof.
  destruct (h !! this) as [o|] eqn:Hl.
  - rewrite (invoke_live c this h o Hl). by destruct (rejects c o).
  - by rewrite (invoke_dangling c this h Hl).
Qed.

Lemma throw_is_atomic_witness :
  (invoke (Id "again") 0%nat [Instance_ "#main.box" false true false 3]).1
  = [Instance_ "#main.box" false true false 3].
Proof.
  apply (throw_is_atomic (Id "again") 0%nat [Instance_ "#main.box" false true false 3]
           MySelectorsClass.duplicate_error).
  reflexivity.
Defined.

(** C7, the claim as written: [combine] leaves both operands unchanged.  With
    [s = cssSelectorBuilder.element('div')], the call [s.combine(s, '+', s)]
    has [s] as receiver and as both operands, and turns its text from
    ["div"] into ["div + div"]. *)
Lemma combine_self_changes_operand :
  MySelectorsClass.stringify 0%nat div_alone = (div_alone, Normal "div")
  ∧ MySelectorsClass.stringify 0%nat div_self_combined
    = (div_self_combined, Normal "div + div")
  ∧ div_self_combined !! 0%nat ≠ div_alone !! 0%nat.
Proof. split_and!; [reflexivity | reflexivity | discriminate]. Qed.

(** C7, amended.  [combine] reads its operands through [stringify] and
    writes only the text of its receiver: every selector other than the
    receiver, so each operand that is not the receiver itself, keeps its
    complete state.  Through [cssSelectorBuilder.combine] the receiver is a
    fresh object, so every selector that existed before keeps its state.
    [stringify] changes nothing, and a second call returns the same string. *)
Theorem combine_keeps_others :
  (∀ this a com b (h : heap) l,
     l ≠ this → (MySelectorsClass.combine this a com b h).1 !! l = h !! l)
  ∧ (∀ a com b (h : heap) l o,
       h !! l = Some o → (cssSelectorBuilder.combine a com b h).1 !! l = Some o)
  ∧ (∀ this (h : heap),
       (MySelectorsClass.stringify this h).1 = h
       ∧ MySelectorsClass.stringify this (MySelectorsClass.stringify this h).1
         = MySelectorsClass.stringify this h).
Proof.
  split_and!.
  - intros. by apply combine_frame.
  - intros. by apply facade_combine_frame.
  - intros this h. split; [apply stringify_pure | by rewrite stringify_pure].
Qed.

Lemma combine_keeps_others_witness :
  (MySelectorsClass.combine 2%nat 0%nat "~" 1%nat
     [id_main; id_main_container; MySelectorsClass.constructed]).1 !! 0%nat
  = [id_main; id_main_container; MySelectorsClass.constructed] !! 0%nat
  ∧ (cssSelectorBuilder.combine 0%nat "~" 1%nat [id_main; id_main_container]).1 !! 1%nat
    = Some id_main_container.
Proof.
  split.
  - apply (proj1 combine_keeps_others 2%nat 0%nat "~" 1%nat
             [id_main; id_main_container; MySelectorsClass.constructed] 0%nat).
    discriminate.
  - apply (proj1 (proj2 combine_keeps_others) 0%nat "~" 1%nat
             [id_main; id_main_container] 1%nat id_main_container).
    reflexivity.
Defined.

(** C9.  For all numbers [w] and [h], [new Rectangle(w, h)] has [width] equal
    to [w] and [height] equal to [h], and its [getArea()] returns [w * h];
    [new Rectangle(10, 20).getArea()] is [200]. *)
Theorem Rectangle_getArea :
  (∀ w h : float,
     Rectangle.width (Rectangle.new_Rectangle w h) = w
     ∧ Rectangle.height (Rectangle.new_Rectangle w h) = h
     ∧ Rectangle.getArea (Rectangle.new_Rectangle w h) = (w * h)%float)
  ∧ Rectangle.getArea (Rectangle.new_Rectangle 10 20) = 200%float.
Proof. split; [intros w h; by split_and! | reflexivity]. Qed.

(** C10, the claim as written: after [combine] the text shows no trace of
    the fragments the receiver held, so that
    [cssSelectorBuilder.element('div').combine(a, '+', b).stringify()] does
    not start with ["div"].  With [a] another builder made by
    [element('div')], and with [a] the receiver itself, the result is
    ["div + span"], which starts with ["div"]; in the second case the
    leading ["div"] is the receiver's own previous text. *)
Lemma combine_result_starts_with_div :
  (∃ h', div_combine_div_span [] = (h', Normal "div + span"))
  ∧ (∃ h', div_combine_self_span [] = (h', Normal "div + span"))
  ∧ String.prefix "div" "div + span" = true.
Proof. split_and!; [by eexists | by eexists | reflexivity]. Qed.

(** C10, amended.  [combine(a, c, b)] called on a builder that already holds
    fragments returns that builder with its text overwritten, not extended:
    the text becomes exactly [stringify(a) + " " + c + " " + stringify(b)],
    the operands' texts being those at the time of the call, and [order] and
    the three flags stay as they were.  What the receiver held before shows
    in the result only through the operands' texts: when the receiver is
    neither operand, the result is the same whatever the receiver held. *)
Theorem combine_replaces_text :
  (∀ this a com b (h : heap) o sa sb,
     h !! this = Some o →
     MySelectorsClass.stringify a h = (h, Normal sa) →
     MySelectorsClass.stringify b h = (h, Normal sb) →
     ∃ h' o',
       MySelectorsClass.combine this a com b h = (h', Normal this)
       ∧ h' !! this = Some o'
       ∧ MySelectorsClass.stringify this h'
         = (h', Normal (sa +:+ " " +:+ com +:+ " " +:+ sb))
       ∧ order o' = order o
       ∧ isElementCalled o' = isElementCalled o
       ∧ isIdCalled o' = isIdCalled o
       ∧ isPseudoElementCalled o' = isPseudoElementCalled o)
  ∧ (∀ this a com b (h : heap) o o1,
       h !! this = Some o → this ≠ a → this ≠ b →
       (bind (MySelectorsClass.combine this a com b) MySelectorsClass.stringify
          (<[this := o1]> h)).2
       = (bind (MySelectorsClass.combine this a com b) MySelectorsClass.stringify h).2).
Proof.
  split.
  - intros this a com b h o sa sb Hl (_ & oa & Ha & <-)%stringify_normal
      (_ & ob & Hb & <-)%stringify_normal.
    do 2 eexists. split_and!.
    + by apply (combine_live this a com b h o oa ob).
    + by eapply lookup_overwritten.
    + by rewrite (stringify_live _ _ _ (lookup_overwritten h this o _ Hl)).
    + done.
    + done.
    + done.
    + done.
  - intros this a com b h o o1 Hl Hna Hnb.
    pose proof (lookup_overwritten h this o o1 Hl) as Hl1.
    destruct (h !! a) as [oa|] eqn:Ha, (h !! b) as [ob|] eqn:Hb.
    + rewrite (bind_normal _ _ _ _ _ (combine_live this a com b h o oa ob Hl Ha Hb)).
      rewrite (bind_normal _ _ _ _ _
                 (combine_live this a com b (<[this := o1]> h) o1 oa ob Hl1
                    ltac:(by rewrite list_lookup_insert_ne)
                    ltac:(by rewrite list_lookup_insert_ne))).
      rewrite (stringify_live _ _ _ (lookup_overwritten h this o _ Hl)).
      by rewrite (stringify_live _ _ _ (lookup_overwritten _ this o1 _ Hl1)).
    + unfold MySelectorsClass.combine, MySelectorsClass.stringify, bind, read.
      repeat first [rewrite list_lookup_insert_ne by done | rewrite Ha | rewrite Hb
                   | progress cbn]; reflexivity.
    + unfold MySelectorsClass.combine, MySelectorsClass.stringify, bind, read.
      repeat first [rewrite list_lookup_insert_ne by done | rewrite Ha | rewrite Hb
                   | progress cbn]; reflexivity.
    + unfold MySelectorsClass.combine, MySelectorsClass.stringify, bind, read.
      repeat first [rewrite list_lookup_insert_ne by done | rewrite Ha | rewrite Hb
                   | progress cbn]; reflexivity.
Qed.

Lemma combine_replaces_text_witness :
  (∃ h' o',
     MySelectorsClass.combine 1%nat 0%nat ">" 1%nat [id_main; id_main_container]
     = (h', Normal 1%nat)
     ∧ h' !! 1%nat = Some o'
     ∧ MySelectorsClass.stringify 1%nat h' = (h', Normal "#main > #main.container")
     ∧ order o' = order id_main_container
     ∧ isElementCalled o' = isElementCalled id_main_container
     ∧ isIdCalled o' = isIdCalled id_main_container
     ∧ isPseudoElementCalled o' = isPseudoElementCalled id_main_container)
  ∧ (bind (MySelectorsClass.combine 2%nat 0%nat "~" 1%nat) MySelectorsClass.stringify
       (<[2%nat := MySelectorsClass.constructed]>
          [id_main; id_main_container; Instance_ "div.box" true false false 3])).2
    = (bind (MySelectorsClass.combine 2%nat 0%nat "~" 1%nat) MySelectorsClass.stringify
         [id_main; id_main_container; Instance_ "div.box" true false false 3]).2.
Proof.
  split.
  - apply (proj1 combine_replaces_text 1%nat 0%nat ">" 1%nat [id_main; id_main_container]
             id_main_container "#main" "#main.container"); reflexivity.
  - apply (proj2 combine_replaces_text 2%nat 0%nat "~" 1%nat
             [id_main; id_main_container; Instance_ "div.box" true false false 3]
             (Instance_ "div.box" true false false 3) MySelectorsClass.constructed);
      [reflexivity | discriminate | discriminate].
Defined.

(** * Further properties of the selector builder *)

(** ** Which chains are accepted *)

Lemma admits_accepted c o : order o ≤ 6 → rejects c o = None → admits o c.
Proof.
  intros Hb Hacc. split; [by apply accepted_order |].
  destruct c; cbn in *; repeat case_match; done.
Qed.

Lemma admits_follows c c' o : admits (appended c o) c' → follows c c'.
Proof.
  unfold admits, follows.
  destruct c, c'; cbn; intros [Hle Hflag]; try lia; try discriminate;
    first [left; lia | right; split; [lia | done]].
Qed.

Lemma admits_before c c' o : order o ≤ ordinal c → admits (appended c o) c' → admits o c'.
Proof.
  unfold admits. intros Hc [Hle Hflag]. cbn in Hle. split; [lia |].
  destruct c, c'; cbn in *; try done; by destruct (flag_of _ o).
Qed.

(** A chain that returns normally was in selector order, and each of its
    calls was admitted by the state it started from. *)
Lemma chain_normal cs : ∀ this (h h' : heap) o r,
  h !! this = Some o → order o ≤ 6 →
  chain cs this h = (h', Normal r) →
  StronglySorted follows cs ∧ Forall (admits o) cs.
Proof.
  induction cs as [|c cs IH]; intros this h h' o r Hl Hb Hrun.
  - split; constructor.
  - cbn [chain] in Hrun. unfold bind in Hrun.
    rewrite (invoke_live c this h o Hl) in Hrun.
    destruct (rejects c o) eqn:Hacc; [discriminate |].
    pose proof (admits_accepted c o Hb Hacc) as Hc.
    destruct (IH this _ h' (appended c o) r (lookup_overwritten h this o _ Hl)) as [Hs Ha].
    + cbn. pose proof (ordinal_range c). lia.
    + done.
    + split.
      * constructor; [done |]. eapply Forall_impl; [exact Ha |]. intros c'. apply admits_follows.
      * constructor; [done |]. eapply Forall_impl; [exact Ha |].
        intros c'. apply admits_before, (proj1 Hc).
Qed.

(** A list sorted for [follows] has the shape of [ordered_calls]. *)
Lemma follows_ordered_calls l :
  StronglySorted follows l →
  ∃ el id classes attrs pseudoClasses pe,
    l = ordered_calls el id classes attrs pseudoClasses pe.
Proof.
  assert (Hno : ∀ c c' l', Forall (follows c) (c' :: l') →
            ¬ (ordinal c < ordinal c' ∨ (ordinal c = ordinal c' ∧ singleton c = false)) →
            False).
  { intros c c' l' [Hf _]%Forall_cons Hn. by apply Hn. }
  induction l as [|c l IH]; intros Hs.
  - by exists None, None, [], [], [], None.
  - apply StronglySorted_cons in Hs as [Hf Hs].
    destruct (IH Hs) as (el & id & cl & at' & pc & pe & ->). clear IH Hs.
    unfold ordered_calls in Hf.
    destruct c as [v|v|v|v|v|v].
    + destruct el as [w|]; cbn in Hf;
        [exfalso; eapply Hno; [exact Hf | cbn; intros [? | [? ?]]; by try lia] |].
      by exists (Some v), id, cl, at', pc, pe.
    + destruct el as [w|]; cbn in Hf;
        [exfalso; eapply Hno; [exact Hf | cbn; intros [? | [? ?]]; by try lia] |].
      destruct id as [w|]; cbn in Hf;
        [exfalso; eapply Hno; [exact Hf | cbn; intros [? | [? ?]]; by try lia] |].
      by exists None, (Some v), cl, at', pc, pe.
    + destruct el as [w|]; cbn in Hf;
        [exfalso; eapply Hno; [exact Hf | cbn; intros [? | [? ?]]; by try lia] |].
      destruct id as [w|]; cbn in Hf;
        [exfalso; eapply Hno; [exact Hf | cbn; intros [? | [? ?]]; by try lia] |].
      by exists None, None, (v :: cl), at', pc, pe.
    + destruct el as [w|]; cbn in Hf;
        [exfalso; eapply Hno; [exact Hf | cbn; intros [? | [? ?]]; by try lia] |].
      destruct id as [w|]; cbn in Hf;
        [exfalso; eapply Hno; [exact Hf | cbn; intros [? | [? ?]]; by try lia] |].
      destruct cl as [|w cl]; cbn in Hf;
        [| exfalso; eapply Hno; [exact Hf | cbn; intros [? | [? ?]]; by try lia]].
      by exists None, None, [], (v :: at'), pc, pe.
    + destruct el as [w|]; cbn in Hf;
        [exfalso; eapply Hno; [exact Hf | cbn; intros [? | [? ?]]; by try lia] |].
      destruct id as [w|]; cbn in Hf;
        [exfalso; eapply Hno; [exact Hf | cbn; intros [? | [? ?]]; by try lia] |].
      destruct cl as [|w cl]; cbn in Hf;
        [| exfalso; eapply Hno; [exact Hf | cbn; intros [? | [? ?]]; by try lia]].
      destruct at' as [|w at']; cbn in Hf;
        [| exfalso; eapply Hno; [exact Hf | cbn; intros [? | [? ?]]; by try lia]].
      by exists None, None, [], [], (v :: pc), pe.
    + destruct el as [w|]; cbn in Hf;
        [exfalso; eapply Hno; [exact Hf | cbn; intros [? | [? ?]]; by try lia] |].
      destruct id as [w|]; cbn in Hf;
        [exfalso; eapply Hno; [exact Hf | cbn; intros [? | [? ?]]; by try lia] |].
      destruct cl as [|w cl]; cbn in Hf;
        [| exfalso; eapply Hno; [exact Hf | cbn; intros [? | [? ?]]; by try lia]].
      destruct at' as [|w at']; cbn in Hf;
        [| exfalso; eapply Hno; [exact Hf | cbn; intros [? | [? ?]]; by try lia]].
      destruct pc as [|w pc]; cbn in Hf;
        [| exfalso; eapply Hno; [exact Hf | cbn; intros [? | [? ?]]; by try lia]].
      destruct pe as [w|]; cbn in Hf;
        [exfalso; eapply Hno; [exact Hf | cbn; intros [? | [? ?]]; by try lia] |].
      by exists None, None, [], [], [], (Some v).
Qed.

(** X1.  A chain of category calls started on the facade returns normally
    exactly when its calls are in selector order: at most one element, then
    at most one id, then classes, attributes and pseudo-classes, then at most
    one pseudo-element.  Every other chain throws. *)
Theorem start_normal_iff c cs (h : heap) :
  (∃ h' r, start c cs h = (h', Normal r))
  ↔ ∃ el id classes attrs pseudoClasses pe,
      c :: cs = ordered_calls el id classes attrs pseudoClasses pe.
Proof.
  unfold start. rewrite (bind_normal _ _ _ _ _ (facade_new c h)). split.
  - intros (h' & r & Hrun). apply follows_ordered_calls.
    destruct (chain_normal cs _ _ h' (appended c MySelectorsClass.constructed) r
                (lookup_new h _)) as [Hs Ha]; [| done |].
    + cbn. pose proof (ordinal_range c). lia.
    + constructor; [done |]. eapply Forall_impl; [exact Ha |]. intros c'. apply admits_follows.
  - intros (el & id & cl & at' & pc & pe & Heq).
    pose proof (ordered_calls_follows el id cl at' pc pe) as Hs.
    rewrite <- Heq in Hs. apply StronglySorted_cons in Hs as [Hc Hs].
    destruct (chain_follows cs (length h)
                (h ++ [appended c MySelectorsClass.constructed])
                (appended c MySelectorsClass.constructed)) as (o' & Hrun & _).
    + apply lookup_new.
    + done.
    + rewrite Forall_forall in *. intros c' Hin.
      apply rejects_after; [auto | apply rejects_constructed].
    + eauto.
Qed.

Lemma start_normal_iff_witness :
  ¬ ∃ h' r, start (Class "box") [Attr "href"; Class "late"] [] = (h', Normal r).
Proof.
  intros H.
  apply (proj1 (start_normal_iff (Class "box") [Attr "href"; Class "late"] [])) in H.
  destruct H as (el & id & cl & at' & pc & pe & H).
  destruct el, id; try discriminate H.
  destruct cl as [|? [|? ?]]; try discriminate H;
    destruct at' as [|? [|? ?]]; try discriminate H;
    destruct pc as [|? ?]; try discriminate H; destruct pe; discriminate H.
Defined.

(** ** The text and the verdict of a reachable builder *)

(** X2.  The text of a builder reached from the facade by category calls is
    the concatenation of the fragments of the calls that returned normally,
    in call order; a call that threw contributes nothing. *)
Theorem reachable_text cs o :
  reachable cs o → selector o = concat_strings (fragment <$> cs).
Proof.
  induction 1 as [c h h' this o Hf Hl
                 | cs o c h this h' next o' _ IH Hl Hcall Hl'
                 | cs o c h this h' e o' _ IH Hl Hcall Hl'].
  - rewrite facade_new in Hf. injection Hf as <- <-.
    rewrite lookup_new in Hl. injection Hl as <-.
    cbn. by rewrite append_nil_r.
  - destruct (invoke_normal _ _ _ _ _ _ Hl Hcall) as (_ & -> & _ & Hnew).
    rewrite Hnew in Hl'. injection Hl' as <-.
    rewrite fmap_app, concat_strings_app. cbn [appended selector]. rewrite IH.
    cbn. by rewrite append_nil_r.
  - destruct (invoke_throw _ _ _ _ _ _ Hl Hcall) as (_ & ->).
    rewrite Hl in Hl'. by injection Hl' as <-.
Qed.

Lemma reachable_text_witness :
  selector id_main_container = concat_strings (fragment <$> [Id "main"; Class "container"]).
Proof.
  apply (reachable_text [Id "main"; Class "container"] id_main_container).
  apply (reach_call [Id "main"] id_main (Class "container") [id_main] 0%nat
           [id_main_container] 0%nat id_main_container);
    [ apply (reach_facade (Id "main") [] [id_main] 0%nat id_main) | .. ];
    reflexivity.
Defined.

(** On a reachable state the check of a method and the verdict read off the
    appended calls agree. *)
Lemma rejects_verdict cs o c : reachable cs o → rejects c o = verdict cs c.
Proof.
  intros Hinv%reachable_invariant.
  pose proof (invariant_order_range _ _ Hinv) as Hrange.
  destruct Hinv as [_ Hlast _ Hel Hid Hpe].
  unfold verdict. rewrite Hlast.
  change (default 0 (Some (order o))) with (order o).
  assert (Hsix : (6 <? order o) = false) by (apply Z.ltb_ge; lia).
  destruct c; cbn [rejects singleton ordinal andb];
    rewrite <- ?Hel, <- ?Hid, <- ?Hpe, ?Hsix; reflexivity.
Qed.

(** X3.  On a builder reached from the facade, what a category call does is
    told by the calls appended so far: it throws the duplicate error when its
    category is element, id or pseudo-element and was appended before;
    otherwise it throws the ordering error when its ordinal is below that of
    the last call appended; otherwise it appends its fragment and returns the
    builder.  The duplicate check comes first. *)
Theorem invoke_verdict cs o c this (h : heap) :
  reachable cs o → h !! this = Some o →
  invoke c this h =
    match verdict cs c with
    | Some e => (h, Throw e)
    | None => (<[this := appended c o]> h, Normal this)
    end.
Proof.
  intros Hreach Hl.
  by rewrite (invoke_live c this h o Hl), (rejects_verdict cs o c Hreach).
Qed.

Lemma invoke_verdict_witness :
  invoke (Id "again") 0%nat [id_main_container]
  = ([id_main_container], Throw MySelectorsClass.duplicate_error)
  ∧ invoke (Element "div") 0%nat [id_main_container]
    = ([id_main_container], Throw MySelectorsClass.order_error).
Proof.
  assert (H : reachable [Id "main"; Class "container"] id_main_container).
  { apply (reach_call [Id "main"] id_main (Class "container") [id_main] 0%nat
             [id_main_container] 0%nat id_main_container);
      [ apply (reach_facade (Id "main") [] [id_main] 0%nat id_main) | .. ];
      reflexivity. }
  split.
  - apply (invoke_verdict _ _ (Id "again") 0%nat [id_main_container] H). reflexivity.
  - apply (invoke_verdict _ _ (Element "div") 0%nat [id_main_container] H). reflexivity.
Defined.

(** ** Builders are separate objects *)

Lemma invoke_frame c this (h : heap) l :
  l ≠ this → (invoke c this h).1 !! l = h !! l.
Proof.
  intros Hne. destruct (h !! this) as [o|] eqn:Hl.
  - rewrite (invoke_live c this h o Hl). destruct (rejects c o); cbn; [done |].
    by apply list_lookup_insert_ne.
  - by rewrite (invoke_dangling c this h Hl).
Qed.

(** X4.  A category method changes no object but its receiver, allocates
    nothing, and what it returns normally is the receiver itself.  A facade
    entry point hands out a reference that denoted no object before, adds
    exactly that one object and leaves every existing object as it was. *)
Theorem builders_are_separate :
  (∀ c this (h : heap),
     (∀ l, l ≠ this → (invoke c this h).1 !! l = h !! l)
     ∧ length (invoke c this h).1 = length h
     ∧ ∀ next, (invoke c this h).2 = Normal next → next = this)
  ∧ (∀ c (h : heap), ∃ this,
       (facade c h).2 = Normal this
       ∧ h !! this = None
       ∧ length (facade c h).1 = S (length h)
       ∧ ∀ l o, h !! l = Some o → (facade c h).1 !! l = Some o).
Proof.
  split.
  - intros c this h. split_and!.
    + intros l. apply invoke_frame.
    + destruct (h !! this) as [o|] eqn:Hl.
      * rewrite (invoke_live c this h o Hl). destruct (rejects c o); cbn; [done |].
        apply length_insert.
      * by rewrite (invoke_dangling c this h Hl).
    + intros next. destruct (h !! this) as [o|] eqn:Hl.
      * rewrite (invoke_live c this h o Hl). destruct (rejects c o); cbn; congruence.
      * by rewrite (invoke_dangling c this h Hl).
  - intros c h. exists (length h). rewrite facade_new. cbn. split_and!.
    + done.
    + by apply lookup_ge_None.
    + rewrite length_app. cbn. lia.
    + intros l o. apply lookup_app_l_Some.
Qed.

Lemma builders_are_separate_witness :
  (invoke (Class "box") 0%nat [id_main; id_main_container]).1 !! 1%nat
  = [id_main; id_main_container] !! 1%nat.
Proof.
  apply (proj1 (proj1 builders_are_separate (Class "box") 0%nat [id_main; id_main_container])).
  discriminate.
Defined.

(** ** combine and the checks *)

(** The heap [combine] leaves: the one it found, or that heap with the text
    of the receiver overwritten. *)
Lemma combine_heap this a com b (h : heap) :
  (MySelectorsClass.combine this a com b h).1 = h
  ∨ ∃ o s, h !! this = Some o
           ∧ (MySelectorsClass.combine this a com b h).1 = <[this := set_selector s o]> h.
Proof.
  unfold MySelectorsClass.combine, MySelectorsClass.stringify, bind, read, write, ret.
  destruct (h !! a); [| by left]. destruct (h !! b); [| by left].
  destruct (h !! this) as [o|]; [| by left]. right. by eexists _, _.
Qed.

Lemma rejects_set_selector c s o : rejects c (set_selector s o) = rejects c o.
Proof. by destruct c. Qed.

(** X5.  [combine] does not touch what the checks read: after any [combine],
    on any receiver and operands, a category call on any builder ends as it
    would have ended before it, with the same error or with the same normal
    return. *)
Theorem combine_keeps_checks this a com b c l (h : heap) :
  (invoke c l (MySelectorsClass.combine this a com b h).1).2 = (invoke c l h).2.
Proof.
  destruct (combine_heap this a com b h) as [-> | (o & s & Hl & ->)]; [done |].
  destruct (decide (l = this)) as [-> | Hne].
  - rewrite (invoke_live c this _ _ (lookup_overwritten h this o _ Hl)).
    rewrite (invoke_live c this h o Hl), rejects_set_selector.
    by destruct (rejects c o).
  - destruct (h !! l) as [ol|] eqn:Hol.
    + rewrite (invoke_live c l h ol Hol).
      rewrite (invoke_live c l _ ol) by (by rewrite list_lookup_insert_ne).
      by destruct (rejects c ol).
    + rewrite (invoke_dangling c l h Hol).
      by rewrite (invoke_dangling c l) by (by rewrite list_lookup_insert_ne).
Qed.

(** X6.  The selector returned by [cssSelectorBuilder.combine] is a builder
    with no category recorded: any category call on it returns normally and
    appends its fragment right after the combined text, whatever the
    operands hold. *)
Theorem combined_accepts_any a com b c (h : heap) sa sb :
  MySelectorsClass.stringify a h = (h, Normal sa) →
  MySelectorsClass.stringify b h = (h, Normal sb) →
  ∃ h', combine_then a com b c h
        = (h', Normal ((sa +:+ " " +:+ com +:+ " " +:+ sb) +:+ fragment c)).
Proof.
  intros (_ & oa & Ha & <-)%stringify_normal (_ & ob & Hb & <-)%stringify_normal.
  unfold combine_then.
  rewrite (bind_normal _ _ _ _ _ (facade_combine_live a com b h oa ob Ha Hb)).
  unfold bind. rewrite (invoke_live c _ _ _ (lookup_new h _)).
  assert (Hacc : ∀ s, rejects c (set_selector s MySelectorsClass.constructed) = None)
    by (intros; by destruct c).
  rewrite Hacc, insert_new.
  rewrite (stringify_live _ _ _ (lookup_new h _)). eauto.
Qed.

Lemma combined_accepts_any_witness :
  ∃ h', combine_then 0%nat "+" 1%nat (Element "p") [id_main; id_main_container]
        = (h', Normal "#main + #main.containerp").
Proof.
  apply (combined_accepts_any 0%nat "+" 1%nat (Element "p") [id_main; id_main_container]
           "#main" "#main.container"); reflexivity.
Defined.

(** X7.  Nesting does not show in the text: combining [a] with [b] and the
    result with [d], or [a] with the combination of [b] and [d], stringifies
    to the same [sa c1 sb c2 sd], the three texts joined by the two
    combinators with single spaces around each. *)
Theorem combine_nesting a c1 b c2 d (h : heap) sa sb sd :
  MySelectorsClass.stringify a h = (h, Normal sa) →
  MySelectorsClass.stringify b h = (h, Normal sb) →
  MySelectorsClass.stringify d h = (h, Normal sd) →
  (∃ h', combine_left a c1 b c2 d h
         = (h', Normal (sa +:+ " " +:+ c1 +:+ " " +:+ sb +:+ " " +:+ c2 +:+ " " +:+ sd)))
  ∧ (∃ h', combine_right a c1 b c2 d h
           = (h', Normal (sa +:+ " " +:+ c1 +:+ " " +:+ sb +:+ " " +:+ c2 +:+ " " +:+ sd))).
Proof.
  intros (_ & oa & Ha & <-)%stringify_normal (_ & ob & Hb & <-)%stringify_normal
    (_ & od & Hd & <-)%stringify_normal.
  split.
  - unfold combine_left.
    rewrite (bind_normal _ _ _ _ _ (facade_combine_live a c1 b h oa ob Ha Hb)).
    erewrite (bind_normal _ _ _ _ _ (facade_combine_live _ c2 d _ _ od (lookup_new h _)
                                      (lookup_app_l_Some _ _ _ _ Hd))).
    rewrite (stringify_live _ _ _ (lookup_new _ _)). eexists. cbn [selector set_selector].
    by rewrite !append_assoc.
  - unfold combine_right.
    rewrite (bind_normal _ _ _ _ _ (facade_combine_live b c2 d h ob od Hb Hd)).
    erewrite (bind_normal _ _ _ _ _ (facade_combine_live a c1 _ _ oa _
                                      (lookup_app_l_Some _ _ _ _ Ha) (lookup_new h _))).
    rewrite (stringify_live _ _ _ (lookup_new _ _)). eexists. reflexivity.
Qed.

Lemma combine_nesting_witness :
  (∃ h', combine_left 0%nat ">" 1%nat "~" 0%nat [id_main; id_main_container]
         = (h', Normal "#main > #main.container ~ #main"))
  ∧ (∃ h', combine_right 0%nat ">" 1%nat "~" 0%nat [id_main; id_main_container]
           = (h', Normal "#main > #main.container ~ #main")).
Proof.
  apply (combine_nesting 0%nat ">" 1%nat "~" 0%nat [id_main; id_main_container]
           "#main" "#main.container" "#main"); reflexivity.
Defined.

(** ** What client statements can do to the heap *)

(** One client statement leaves the heap as it is, changes one existing
    object by a [step], or adds one object. *)
Lemma perform_shape a (h : heap) :
  perform a h = h
  ∨ (∃ this o o', h !! this = Some o ∧ step o o' ∧ perform a h = <[this := o']> h)
  ∨ (∃ o', born o' ∧ perform a h = h ++ [o']).
Proof.
  destruct a as [this c | this val1 com val2 | c | s1 com s2 | this]; cbn [perform].
  - destruct (h !! this) as [o|] eqn:Hl.
    + rewrite (invoke_live c this h o Hl). destruct (rejects c o) eqn:Hacc; [by left |].
      right; left. exists this, o, (appended c o). split_and!; [done | | done].
      left. by exists c.
    + left. by rewrite (invoke_dangling c this h Hl).
  - destruct (combine_heap this val1 com val2 h) as [-> | (o & s & Hl & ->)]; [by left |].
    right; left. exists this, o, (set_selector s o). split_and!; [done | | done].
    right. by exists s.
  - right; right. rewrite facade_new. eexists. split; [| done]. right; left. by exists c.
  - right; right.
    change (cssSelectorBuilder.combine s1 com s2 h)
      with (MySelectorsClass.combine (length h) s1 com s2
              (h ++ [MySelectorsClass.constructed])).
    destruct (combine_heap (length h) s1 com s2 (h ++ [MySelectorsClass.constructed]))
      as [-> | (o & s & Hl & ->)].
    + eexists. split; [| done]. by left.
    + rewrite lookup_new in Hl. injection Hl as <-. rewrite insert_new.
      eexists. split; [| done]. right; right. by exists s.
  - left. apply stringify_pure.
Qed.

(** An object that exists still exists after a client statement, unchanged
    or one [step] further. *)
Lemma perform_object a (h : heap) l o :
  h !! l = Some o → ∃ o', perform a h !! l = Some o' ∧ (o' = o ∨ step o o').
Proof.
  intros Hl.
  destruct (perform_shape a h) as [-> | [(this & o0 & o' & Hthis & Hstep & ->) | (o' & _ & ->)]].
  - eauto.
  - destruct (decide (this = l)) as [-> | Hne].
    + rewrite (lookup_overwritten h l o0) by done.
      assert (o0 = o) as -> by congruence. eauto.
    + rewrite list_lookup_insert_ne by done. eauto.
  - erewrite lookup_app_l_Some by done. eauto.
Qed.

Lemma consistent_born o : born o → consistent o.
Proof.
  intros [-> | [[c ->] | [s ->]]]; unfold consistent; [| destruct c |]; cbn;
    repeat split; intros; try done; lia.
Qed.

Lemma consistent_step o o' : consistent o → step o o' → consistent o'.
Proof.
  intros (Hr & Hpe & Hel & Hid & H1 & H2) [(c & Hacc & ->) | (s & ->)];
    [| repeat split; cbn; first [lia | apply Hpe | done]].
  pose proof (accepted_order c o (proj2 Hr) Hacc) as Hle.
  assert (Hpe' : order o < 6 → isPseudoElementCalled o = false).
  { intros ?. destruct (isPseudoElementCalled o); [| done]. destruct Hpe as [Hpe _].
    specialize (Hpe eq_refl). lia. }
  assert (Hid' : order o < 2 → isIdCalled o = false).
  { intros ?. destruct (isIdCalled o); [| done]. specialize (Hid eq_refl). lia. }
  unfold consistent.
  destruct c; cbn in *; repeat split; intros; try done; try lia;
    first [ rewrite Hpe' in * by lia; done | rewrite Hid' in * by lia; done | auto ].
Qed.

Lemma perform_consistent a (h : heap) :
  Forall consistent h → Forall consistent (perform a h).
Proof.
  intros Hall. rewrite Forall_lookup in Hall.
  destruct (perform_shape a h) as [-> | [(this & o0 & o' & Hthis & Hstep & ->) | (o' & Hb & ->)]].
  - by apply Forall_lookup.
  - apply Forall_lookup. intros i x [(-> & <- & _) | (_ & Hx)]%list_lookup_insert_Some.
    + eapply consistent_step; eauto.
    + eauto.
  - apply Forall_app. split; [by apply Forall_lookup |].
    constructor; [by apply consistent_born | constructor].
Qed.

Lemma perform_all_consistent acts : ∀ h : heap,
  Forall consistent h → Forall consistent (perform_all acts h).
Proof.
  induction acts as [|a acts IH]; intros h Hall; cbn; [done |].
  by apply IH, perform_consistent.
Qed.

(** X8.  In every heap a client can build, each builder keeps [order] and
    its flags in agreement: [order] is between 0 and 6, the pseudo-element
    flag is set exactly when [order] is 6, the element flag implies
    [order >= 1] and follows from [order = 1], and the id flag implies
    [order >= 2] and follows from [order = 2]. *)
Theorem built_consistent (h : heap) l o :
  built h → h !! l = Some o → consistent o.
Proof.
  intros [acts ->] Hl.
  pose proof (perform_all_consistent acts [] (Forall_nil_2 _)) as Hall.
  rewrite Forall_lookup in Hall. eauto.
Qed.

Lemma built_consistent_witness : consistent id_main_container.
Proof.
  apply (built_consistent [id_main_container] 0%nat).
  - exists [Create (Id "main"); Call 0%nat (Class "container")]. reflexivity.
  - reflexivity.
Defined.

(** ** Rejections last *)

(** A check that fails keeps failing, with the same message, after the
    object is changed by one [step]: a flag that is set stays set, and an
    accepted call that moves [order] moves it up. *)
Lemma rejects_step c o o' e :
  step o o' → rejects c o = Some e → rejects c o' = Some e.
Proof.
  intros [(c2 & Hacc & ->) | (s & ->)]; [| by rewrite rejects_set_selector].
  revert Hacc. destruct c, c2; cbn;
    repeat match goal with
    | |- context [if ?b then _ else _] =>
        match b with
        | _ <? _ => destruct (Z.ltb_spec0 1 (order o)), (Z.ltb_spec0 2 (order o)),
                      (Z.ltb_spec0 3 (order o)), (Z.ltb_spec0 4 (order o)),
                      (Z.ltb_spec0 5 (order o))
        | _ => destruct b
        end
    end; intros; try done; lia.
Qed.

Lemma perform_all_rejects acts : ∀ (h : heap) l o c e,
  h !! l = Some o → rejects c o = Some e →
  ∃ o', perform_all acts h !! l = Some o' ∧ rejects c o' = Some e.
Proof.
  induction acts as [|a acts IH]; intros h l o c e Hl Hrej; cbn.
  - eauto.
  - destruct (perform_object a h l o Hl) as (o1 & Hl1 & [-> | Hstep]).
    + by apply (IH _ l o).
    + apply (IH _ l o1); [done |]. by eapply rejects_step.
Qed.

(** X9.  A rejection is final: once a category call on a builder throws, the
    same call on that builder throws the same error after anything else the
    client does, on this builder or on others. *)
Theorem rejection_is_final c this (h : heap) o e acts :
  h !! this = Some o →
  (invoke c this h).2 = Throw e →
  (invoke c this (perform_all acts h)).2 = Throw e.
Proof.
  intros Hl. rewrite (invoke_live c this h o Hl).
  destruct (rejects c o) as [e'|] eqn:Hrej; [| done]. intros [= <-].
  destruct (perform_all_rejects acts h this o c e' Hl Hrej) as (o' & Hl' & Hrej').
  by rewrite (invoke_live c this _ o' Hl'), Hrej'.
Qed.

Lemma rejection_is_final_witness :
  (invoke (Id "late") 0%nat
     (perform_all [Call 0%nat (Attr "href"); Create (Class "other");
                   Combine 0%nat 1%nat "+" 1%nat; Call 0%nat (PseudoElement "after")]
        [id_main_container])).2
  = Throw MySelectorsClass.duplicate_error.
Proof.
  apply (rejection_is_final (Id "late") 0%nat [id_main_container] id_main_container);
    reflexivity.
Defined.

(** X10.  [pseudoElement] closes a builder: after it has returned normally,
    every category call on that builder throws, whatever the client does in
    between. *)
Theorem pseudoElement_closes v c this (h h1 : heap) next acts :
  invoke (PseudoElement v) this h = (h1, Normal next)
  ∨ facade (PseudoElement v) h = (h1, Normal next) →
  ∃ e, (invoke c next (perform_all acts h1)).2 = Throw e.
Proof.
  intros Hcall.
  assert (∃ o, h1 !! next = Some (appended (PseudoElement v) o)) as [o Hl].
  { destruct Hcall as [Hc | Hc].
    - destruct (h !! this) as [o|] eqn:Hl.
      + destruct (invoke_normal _ _ _ _ _ _ Hl Hc) as (_ & -> & _ & Hnew). eauto.
      + by rewrite (invoke_dangling _ this h Hl) in Hc.
    - rewrite facade_new in Hc. injection Hc as <- <-. rewrite lookup_new. eauto. }
  assert (∃ e, rejects c (appended (PseudoElement v) o) = Some e) as [e Hrej].
  { destruct c; cbn; repeat case_match; eauto. }
  destruct (perform_all_rejects acts h1 next _ c e Hl Hrej) as (o' & Hl' & Hrej').
  exists e. by rewrite (invoke_live c next _ o' Hl'), Hrej'.
Qed.

Lemma pseudoElement_closes_witness :
  ∃ e, (invoke (Class "late") 0%nat
          (perform_all [Create (Element "p"); Combine 0%nat 1%nat ">" 1%nat]
             [Instance_ "#main::after" false true true 6])).2
       = Throw e.
Proof.
  apply (pseudoElement_closes "after" (Class "late") 0%nat [id_main]
           [Instance_ "#main::after" false true true 6] 0%nat).
  left. reflexivity.
Defined.

(** ** Where a chain stops *)

Lemma chain_app cs1 cs2 this (h : heap) :
  chain (cs1 ++ cs2) this h = bind (chain cs1 this) (chain cs2) h.
Proof.
  revert this h. induction cs1 as [|c cs1 IH]; intros this h; [reflexivity |].
  cbn [chain app]. unfold bind in *.
  destruct (invoke c this h) as [h1 [next|e]]; [apply IH | reflexivity].
Qed.

(** A chain that returns normally from a reachable state ends in a reachable
    state of the same builder. *)
Lemma chain_reachable cs : ∀ cs0 o this (h h' : heap) r,
  reachable cs0 o → h !! this = Some o →
  chain cs this h = (h', Normal r) →
  r = this ∧ ∃ o', h' !! this = Some o' ∧ reachable (cs0 ++ cs) o'.
Proof.
  induction cs as [|c cs IH]; intros cs0 o this h h' r Hreach Hl Hrun.
  - cbn in Hrun. injection Hrun as <- <-. rewrite app_nil_r. eauto.
  - cbn [chain] in Hrun. unfold bind in Hrun.
    destruct (invoke c this h) as [h1 [next|e]] eqn:Hcall; [| done].
    destruct (invoke_normal _ _ _ _ _ _ Hl Hcall) as (_ & -> & _ & Hnew).
    destruct (IH (cs0 ++ [c]) (appended c o) this h1 h' r) as (-> & o' & Hl' & Hreach').
    + eapply reach_call; eauto.
    + done.
    + done.
    + split; [done |]. exists o'. split; [done |].
      by rewrite <- app_assoc in Hreach'.
Qed.

(** X11.  A facade chain that runs in selector order up to a call that the
    calls before it rule out throws at that call, with the error the verdict
    names; no later call of the chain runs, and the builder is left holding
    the text of the calls before the offending one. *)
Theorem chain_stops_at el id classes attrs pseudoClasses pe c cs1 c' cs2 e (h : heap) :
  ordered_calls el id classes attrs pseudoClasses pe = c :: cs1 →
  verdict (c :: cs1) c' = Some e →
  ∃ h' o, start c (cs1 ++ c' :: cs2) h = (h', Throw e)
          ∧ h' !! length h = Some o
          ∧ selector o = concat_strings (fragment <$> c :: cs1).
Proof.
  intros Hshape Hv.
  pose proof (ordered_calls_follows el id classes attrs pseudoClasses pe) as Hsorted.
  rewrite Hshape in Hsorted. apply StronglySorted_cons in Hsorted as [Hc Hs].
  destruct (chain_follows cs1 (length h)
              (h ++ [appended c MySelectorsClass.constructed])
              (appended c MySelectorsClass.constructed)) as (o1 & Hrun & Hsel).
  { apply lookup_new. }
  { done. }
  { rewrite Forall_forall in *. intros c1 Hin.
    apply rejects_after; [auto | apply rejects_constructed]. }
  destruct (chain_reachable cs1 [c] (appended c MySelectorsClass.constructed)
              (length h) _ _ _
              (reach_facade c h _ _ _ (facade_new c h) (lookup_new h _))
              (lookup_new h _) Hrun) as (_ & o & Hl & Hreach).
  change ([c] ++ cs1) with (c :: cs1) in Hreach.
  assert (o = o1) as ->.
  { rewrite (lookup_overwritten _ _ _ o1 (lookup_new h _)) in Hl. congruence. }
  exists (<[length h := o1]> (h ++ [appended c MySelectorsClass.constructed])), o1.
  split_and!.
  - unfold start. rewrite (bind_normal _ _ _ _ _ (facade_new c h)).
    rewrite chain_app, (bind_normal _ _ _ _ _ Hrun). cbn [chain].
    unfold bind. rewrite (invoke_live c' _ _ o1 Hl).
    by rewrite (rejects_verdict _ o1 c' Hreach), Hv.
  - done.
  - rewrite Hsel. reflexivity.
Qed.

Lemma chain_stops_at_witness :
  ∃ h' o, start (Element "a") ([Class "btn"] ++ Id "late" :: [PseudoClass "hover"]) []
          = (h', Throw MySelectorsClass.order_error)
          ∧ h' !! 0%nat = Some o
          ∧ selector o = "a.btn".
Proof.
  apply (chain_stops_at (Some "a") None ["btn"] [] [] None
           (Element "a") [Class "btn"] (Id "late") [PseudoClass "hover"]
           MySelectorsClass.order_error []); reflexivity.
Defined.

(** ** Statements on the heap at large *)

Lemma step_advances o o' :
  order o ≤ 6 → o' = o ∨ step o o' → flags_kept o o' ∧ order o ≤ order o' ≤ 6.
Proof.
  intros Hb [-> | [(c & Hacc & ->) | (s & ->)]].
  - split; [apply flags_kept_refl | lia].
  - split; [apply flags_kept_appended |].
    pose proof (accepted_order c o Hb Hacc). pose proof (ordinal_range c). cbn. lia.
  - split; [by unfold flags_kept | cbn; lia].
Qed.

Lemma perform_all_advances acts : ∀ (h : heap) l o,
  h !! l = Some o → order o ≤ 6 →
  ∃ o', perform_all acts h !! l = Some o' ∧ flags_kept o o' ∧ order o ≤ order o' ≤ 6.
Proof.
  induction acts as [|a acts IH]; intros h l o Hl Hb; cbn.
  - exists o. split_and!; [done | apply flags_kept_refl | lia | done].
  - destruct (perform_object a h l o Hl) as (o1 & Hl1 & Hstep).
    destruct (step_advances o o1 Hb Hstep) as (Hk1 & Ho1).
    destruct (IH (perform a h) l o1 Hl1 (proj2 Ho1)) as (o2 & Hl2 & Hk2 & Ho2).
    exists o2. split_and!; [done | by eapply flags_kept_trans | lia | lia].
Qed.

(** X12.  In a heap a client has built, nothing the client does next takes a
    builder back: it stays in the heap, no flag that is set is cleared, and
    [order] never decreases. *)
Theorem builders_only_advance (h : heap) l o acts :
  built h → h !! l = Some o →
  ∃ o', perform_all acts h !! l = Some o' ∧ flags_kept o o' ∧ order o ≤ order o'.
Proof.
  intros [acts0 ->] Hl.
  pose proof (perform_all_consistent acts0 [] (Forall_nil_2 _)) as Hall.
  rewrite Forall_lookup in Hall. destruct (Hall l o Hl) as ([_ Hb] & _).
  destruct (perform_all_advances acts _ l o Hl Hb) as (o' & Hl' & Hk & Ho).
  exists o'. split_and!; [done | done | lia].
Qed.

Lemma builders_only_advance_witness :
  ∃ o', perform_all [Call 0%nat (Attr "href"); Call 0%nat (Id "late");
                     Combine 0%nat 0%nat "+" 0%nat] [id_main_container] !! 0%nat = Some o'
        ∧ flags_kept id_main_container o' ∧ order id_main_container ≤ order o'.
Proof.
  apply (builders_only_advance [id_main_container] 0%nat id_main_container).
  - exists [Create (Id "main"); Call 0%nat (Class "container")]. reflexivity.
  - reflexivity.
Defined.

(** X13.  Category calls on two different builders do not interfere: run in
    either order, each ending in a return or in a caught throw, they leave
    the same heap. *)
Theorem calls_on_distinct_builders_commute a b c1 c2 (h : heap) :
  a ≠ b →
  perform (Call b c2) (perform (Call a c1) h) = perform (Call a c1) (perform (Call b c2) h).
Proof.
  intros Hne. cbn [perform].
  assert (Hshape : ∀ c this (h0 : heap),
            (invoke c this h0).1 =
              match h0 !! this with
              | Some o => match rejects c o with
                          | Some _ => h0
                          | None => <[this := appended c o]> h0
                          end
              | None => h0
              end).
  { intros c this h0. destruct (h0 !! this) as [o|] eqn:Hl.
    - rewrite (invoke_live c this h0 o Hl). by destruct (rejects c o).
    - by rewrite (invoke_dangling c this h0 Hl). }
  rewrite (Hshape c2 b (invoke c1 a h).1), (Hshape c1 a (invoke c2 b h).1).
  rewrite (invoke_frame c1 a h b), (invoke_frame c2 b h a) by done.
  rewrite (Hshape c1 a h), (Hshape c2 b h).
  destruct (h !! a) as [oa|], (h !! b) as [ob|]; try done;
    destruct (rejects c1 oa), (rejects c2 ob); try done.
  by apply list_insert_insert_ne.
Qed.

Lemma calls_on_distinct_builders_commute_witness :
  perform (Call 1%nat (Attr "href")) (perform (Call 0%nat (Class "box")) [id_main; id_main_container])
  = perform (Call 0%nat (Class "box")) (perform (Call 1%nat (Attr "href")) [id_main; id_main_container]).
Proof.
  apply (calls_on_distinct_builders_commute 0%nat 1%nat (Class "box") (Attr "href")
           [id_main; id_main_container]).
  discriminate.
Defined.
